(** * MemDB: the in-memory backend of bytom's [database/leveldb] package

    A shallow embedding of [database/leveldb/mem_db.go]: the store
    ([MemDB]), its iterators ([memDBIterator]) and its batches
    ([memDBBatch]), followed by the properties of the specification that
    were checked against them.

    Modelling conventions.
    - A Go [string] is a sequence of bytes: Rocq's [string] (a list of
      8-bit [ascii]).  Go compares strings bytewise and lexicographically,
      which is [String.compare]; [String.le] is stdpp's name for [<=].
    - A Go [[]byte] is either the nil slice or a slice holding a byte
      sequence: [bytes] is [option string], with [None] for nil.  Slices are
      read as values: a caller that overwrites the backing array of a slice
      it handed to the store is outside the model.
    - [map[string][]byte] is [gmap string bytes].
    - Go's [int] cursor is a [Z]; it stays within [-1 .. len(keys)], far
      from the 64-bit bounds.
    - Every method takes the store's mutex for its whole body, so in this
      sequential embedding the mutex is not represented.
    - An index out of range panics in Go; [memDBIterator_Key] returns
      [None] there. *)

From Stdlib Require Import ZArith.
From stdpp Require Import gmap strings list sorting.

Open Scope Z_scope.

(** ** Byte slices and the library functions the source calls *)

Abbreviation bytes := (option string).

(** [string(b)]: the nil slice converts to the empty string. *)
Definition string_of_bytes (b : bytes) : string := default "" b.

(** [[]byte(s)]: never nil. *)
Definition bytes_of_string (s : string) : bytes := Some s.

(** [bytes.Compare(a, b)]: -1, 0 or 1; a nil argument is an empty slice. *)
Definition bytes_Compare (a b : bytes) : Z :=
  match String.compare (string_of_bytes a) (string_of_bytes b) with
  | Lt => -1
  | Eq => 0
  | Gt => 1
  end.

(** [a >= b] on Go strings. *)
Definition string_geb (a b : string) : bool := String.leb b a.

(** [strings.HasPrefix(s, prefix)]:
    [len(s) >= len(prefix) && s[0:len(prefix)] == prefix]. *)
Definition strings_HasPrefix (s prefix : string) : bool :=
  (String.length prefix <=? String.length s)%nat
  && String.eqb (String.substring 0 (String.length prefix) s) prefix.

(** [sort.Strings]: ascending bytewise order. *)
Definition sort_Strings (l : list string) : list string :=
  merge_sort String.le l.

(** Strict bytewise order on strings. *)
Definition string_lt (a b : string) : Prop := String.compare a b = Lt.

(** ** The store *)

Record MemDB := mkMemDB { db : gmap string bytes }.

Definition NewMemDB : MemDB := mkMemDB ∅.

(** [db.db[string(key)]]: the zero value (nil) when the key is not in the
    map.  The store is returned with the value to make the absence of any
    write explicit. *)
Definition MemDB_Get (key : bytes) (this : MemDB) : bytes * MemDB :=
  (match db this !! string_of_bytes key with
   | Some v => v
   | None => None
   end, this).

Definition MemDB_Set (key value : bytes) (this : MemDB) : MemDB :=
  mkMemDB (<[string_of_bytes key := value]> (db this)).

Definition MemDB_SetSync (key value : bytes) (this : MemDB) : MemDB :=
  mkMemDB (<[string_of_bytes key := value]> (db this)).

Definition MemDB_Delete (key : bytes) (this : MemDB) : MemDB :=
  mkMemDB (delete (string_of_bytes key) (db this)).

Definition MemDB_DeleteSync (key : bytes) (this : MemDB) : MemDB :=
  mkMemDB (delete (string_of_bytes key) (db this)).

(** The keys in the order a [for key := range db.db] loop meets them.  Go
    leaves that order unspecified; every use below sorts the result, and
    [sort_Strings_Permutation] shows the order does not matter then. *)
Definition range_keys (this : MemDB) : list string :=
  (map_to_list (db this)).*1.

(** ** Batches *)

Definition opType := Z.
Definition opTypeSet : opType := 1.
Definition opTypeDelete : opType := 2.

Record operation := mkOperation {
  op_type : opType;
  op_key : bytes;
  op_value : bytes
}.

(** The batch's [db] pointer is the store passed to [memDBBatch_Write]. *)
Record memDBBatch := mkBatch { ops : list operation }.

Definition MemDB_NewBatch : memDBBatch := mkBatch [].

Definition memDBBatch_Set (key value : bytes) (mBatch : memDBBatch)
  : memDBBatch :=
  mkBatch (ops mBatch ++ [mkOperation opTypeSet key value]).

Definition memDBBatch_Delete (key : bytes) (mBatch : memDBBatch)
  : memDBBatch :=
  mkBatch (ops mBatch ++ [mkOperation opTypeDelete key None]).

(** One round of the loop of [Write]. *)
Definition write_op (this : MemDB) (op : operation) : MemDB :=
  if op_type op =? opTypeSet then
    mkMemDB (<[string_of_bytes (op_key op) := op_value op]> (db this))
  else if op_type op =? opTypeDelete then
    mkMemDB (delete (string_of_bytes (op_key op)) (db this))
  else this.

Definition memDBBatch_Write (mBatch : memDBBatch) (this : MemDB) : MemDB :=
  fold_left write_op (ops mBatch) this.

(** ** Iterators *)

(** The iterator's [db] field is the store it was built on; it is the
    store handed to [memDBIterator_Value]. *)
Record memDBIterator := mkIterator {
  last : Z;
  keys : list string;
  start : bytes
}.

(** [&memDBIterator{}]: every field has its zero value. *)
Definition newMemDBIterator : memDBIterator := mkIterator 0 [] None.

(** [it.last >= len(it.keys)-1] ends the iteration; otherwise the cursor
    moves one place on. *)
Definition memDBIterator_Next (it : memDBIterator) : bool * memDBIterator :=
  if last it >=? Z.of_nat (length (keys it)) - 1 then (false, it)
  else (true, mkIterator (last it + 1) (keys it) (start it)).

(** [[]byte(it.keys[it.last])]; [None] is the index-out-of-range panic. *)
Definition memDBIterator_Key (it : memDBIterator) : option bytes :=
  if 0 <=? last it
  then bytes_of_string <$> keys it !! Z.to_nat (last it)
  else None.

(** [it.db.Get(it.Key())]: a live read of the store. *)
Definition memDBIterator_Value (it : memDBIterator) (this : MemDB)
  : option (bytes * MemDB) :=
  match memDBIterator_Key it with
  | Some k => Some (MemDB_Get k this)
  | None => None
  end.

(** The loop of [Seek]: the index of the first key [>= point] among [ks],
    whose first element has index [i]. *)
Fixpoint seek_from (i : Z) (ks : list string) (point : string) : option Z :=
  match ks with
  | [] => None
  | key :: ks' =>
      if string_geb key point then Some i else seek_from (i + 1) ks' point
  end.

Definition memDBIterator_Seek (point : bytes) (it : memDBIterator)
  : bool * memDBIterator :=
  match seek_from 0 (keys it) (string_of_bytes point) with
  | Some i => (true, mkIterator i (keys it) (start it))
  | None => (false, it)
  end.

(** Keys is expected to be in reverse order for reverse iterators. *)
Definition newMemDBIteratorWithArgs (keys : list string) (start : bytes)
  : memDBIterator :=
  let itr := mkIterator (-1) keys start in
  match start with
  | Some _ => snd (memDBIterator_Seek start itr)
  | None => itr
  end.

(** [it.keys = append(it.keys, key)] for the keys that pass [keep]. *)
Definition collect_keys (keep : string → bool) (ks0 range : list string)
  : list string :=
  fold_left (λ ks key, if keep key then ks ++ [key] else ks) range ks0.

Definition MemDB_IteratorPrefix (prefix : bytes) (this : MemDB)
  : memDBIterator :=
  let it := newMemDBIterator in
  let it := mkIterator (-1) (keys it) (start it) in
  let ks :=
    collect_keys (λ key, strings_HasPrefix key (string_of_bytes prefix))
                 (keys it) (range_keys this) in
  mkIterator (last it) (sort_Strings ks) (start it).

Definition MemDB_Iterator (this : MemDB) : memDBIterator :=
  MemDB_IteratorPrefix (Some "") this.

(** [temp := keys[i]; keys[i] = keys[j]; keys[j] = temp].  Both indices
    are in range wherever the source swaps ([swap_keys_in_range]). *)
Definition swap_keys (i j : nat) (ks : list string) : list string :=
  match ks !! i, ks !! j with
  | Some temp, Some kj => <[j := temp]> (<[i := kj]> ks)
  | _, _ => ks
  end.

(** The first [rounds] rounds of
    [for i := 0; i < nkeys/2; i++ { swap keys[i], keys[nkeys-i-1] }]. *)
Definition swap_rounds (nkeys rounds : nat) (keys : list string)
  : list string :=
  fold_left (λ ks i, swap_keys i (nkeys - i - 1) ks) (seq 0 rounds) keys.

Definition reverse_in_place (keys : list string) : list string :=
  let nkeys := length keys in
  swap_rounds nkeys (nkeys / 2) keys.

Definition MemDB_getSortedKeys (start : bytes) (reverse : bool)
  (this : MemDB) : list string :=
  let keys :=
    collect_keys
      (λ key, negb (bytes_Compare (bytes_of_string key) start <? 0))
      [] (range_keys this) in
  let keys := sort_Strings keys in
  if reverse then reverse_in_place keys else keys.

(** The [Prefix] argument is not read. *)
Definition MemDB_IteratorPrefixWithStart (Prefix start : bytes)
  (isReverse : bool) (this : MemDB) : memDBIterator :=
  let keys := MemDB_getSortedKeys start isReverse this in
  newMemDBIteratorWithArgs keys start.

(** ** Traversals

    The loops a caller runs over an iterator.  [traverse] is the usual
    protocol, [for it.Next() { it.Key(); it.Value() }]; it collects the
    pairs read.  [traverse_from_cursor] reads at the cursor before it
    advances: [for ok := true; ok; ok = it.Next() { ... }]. *)

Inductive outcome :=
  | Done (pairs : list (bytes * bytes))
  | Panic
  | OutOfFuel.

Definition emit (p : bytes * bytes) (o : outcome) : outcome :=
  match o with
  | Done pairs => Done (p :: pairs)
  | _ => o
  end.

Fixpoint traverse_loop (fuel : nat) (it : memDBIterator) (this : MemDB)
  : outcome :=
  match fuel with
  | O => OutOfFuel
  | S fuel' =>
      let '(ok, it') := memDBIterator_Next it in
      if ok then
        match memDBIterator_Key it', memDBIterator_Value it' this with
        | Some k, Some (v, this') => emit (k, v) (traverse_loop fuel' it' this')
        | _, _ => Panic
        end
      else Done []
  end.

Definition traverse (it : memDBIterator) (this : MemDB) : outcome :=
  traverse_loop (S (length (keys it))) it this.

Fixpoint traverse_from_cursor_loop (fuel : nat) (it : memDBIterator)
  (this : MemDB) : outcome :=
  match fuel with
  | O => OutOfFuel
  | S fuel' =>
      match memDBIterator_Key it, memDBIterator_Value it this with
      | Some k, Some (v, this') =>
          let '(ok, it') := memDBIterator_Next it in
          if ok then emit (k, v) (traverse_from_cursor_loop fuel' it' this')
          else Done [(k, v)]
      | _, _ => Panic
      end
  end.

Definition traverse_from_cursor (it : memDBIterator) (this : MemDB)
  : outcome :=
  traverse_from_cursor_loop (S (length (keys it))) it this.

(** The keys a traversal visited. *)
Definition visited (o : outcome) : option (list bytes) :=
  match o with
  | Done pairs => Some pairs.*1
  | _ => None
  end.

(** ** Histories of store calls

    A history is a sequence of [Set] and [Delete] calls, run in order. *)

Inductive store_call :=
  | CallSet (key value : bytes)
  | CallDelete (key : bytes).

Definition call_key (c : store_call) : bytes :=
  match c with
  | CallSet key _ => key
  | CallDelete key => key
  end.

Definition run_call (this : MemDB) (c : store_call) : MemDB :=
  match c with
  | CallSet key value => MemDB_Set key value this
  | CallDelete key => MemDB_Delete key this
  end.

Definition run_calls (cs : list store_call) (this : MemDB) : MemDB :=
  fold_left run_call cs this.

(** The same sequence of calls made on a batch. *)
Definition batch_call (mBatch : memDBBatch) (c : store_call) : memDBBatch :=
  match c with
  | CallSet key value => memDBBatch_Set key value mBatch
  | CallDelete key => memDBBatch_Delete key mBatch
  end.

Definition batch_calls (cs : list store_call) (mBatch : memDBBatch)
  : memDBBatch :=
  fold_left batch_call cs mBatch.

(** Two byte slices name the same key when they convert to the same map
    key; [touches k c] says that call [c] is on key [k]. *)
Definition touches (k : bytes) (c : store_call) : bool :=
  bool_decide (string_of_bytes (call_key c) = string_of_bytes k).

(** The specification's reading of a history: the last call on [k], and
    the value the last writer leaves for [k] (the last [Set] when no
    [Delete] follows it, absent otherwise). *)
Fixpoint last_call (k : bytes) (cs : list store_call) : option store_call :=
  match cs with
  | [] => None
  | c :: cs' =>
      match last_call k cs' with
      | Some c' => Some c'
      | None => if touches k c then Some c else None
      end
  end.

Definition last_writer (k : bytes) (cs : list store_call) : bytes :=
  match last_call k cs with
  | Some (CallSet _ value) => value
  | Some (CallDelete _) => None
  | None => None
  end.

(** The store of the example scenarios: a, c, b set one by one. *)
Definition store_acb : MemDB :=
  MemDB_Set (Some "b") (Some "2")
    (MemDB_Set (Some "c") (Some "3")
       (MemDB_Set (Some "a") (Some "1") NewMemDB)).

(** The store that holds the key b alone. *)
Definition store_b : MemDB := MemDB_Set (Some "b") (Some "2") NewMemDB.

(** The pair a traversal reads at key [k]. *)
Definition read_pair (this : MemDB) (k : string) : bytes * bytes :=
  (Some k, (MemDB_Get (Some k) this).1).

(** The loop invariant of the in-place reversal of [ks0]: after [m]
    rounds the outer [m] places on both sides are mirrored and the middle
    is as it was. *)
Definition mirrored (ks0 : list string) (m : nat) (l : list string) : Prop :=
  length l = length ks0
  ∧ ∀ j, (j < length ks0)%nat →
      l !! j = if decide (j < m ∨ length ks0 - m ≤ j)%nat
               then ks0 !! (length ks0 - 1 - j)%nat else ks0 !! j.

(** ** The remaining methods and the vocabulary of their properties *)

(** [Close] is a no-op. *)
Definition MemDB_Close (this : MemDB) : MemDB := this.

(** [Stats]: a fresh map with the one entry [database.type]. *)
Definition MemDB_Stats (this : MemDB) : gmap string string :=
  <["database.type" := "memDB"]> ∅.

(** [Release]: [it.db = nil; it.keys = nil].  The [db] field is not
    represented; with no keys left [Key] panics before any read of it,
    so neither [Key] nor [Value] can tell. *)
Definition memDBIterator_Release (it : memDBIterator) : memDBIterator :=
  mkIterator (last it) [] (start it).




(** The cursor is before the first key or on a captured key. *)
Definition cursor_in_bounds (it : memDBIterator) : Prop :=
  -1 ≤ last it ≤ Z.of_nat (length (keys it)) - 1.

(** What one pending operation does to the binding of map key [k]:
    [None] when it leaves it alone, [Some None] when it removes it,
    [Some (Some v)] when it binds it to [v]. *)
Definition op_effect (k : string) (op : operation) : option (option bytes) :=
  if decide (string_of_bytes (op_key op) = k) then
    if op_type op =? opTypeSet then Some (Some (op_value op))
    else if op_type op =? opTypeDelete then Some None
    else None
  else None.

(** The effect of the last operation of [l] that has one on [k]. *)
Fixpoint last_effect (k : string) (l : list operation)
  : option (option bytes) :=
  match l with
  | [] => None
  | op :: l' =>
      match last_effect k l' with
      | Some e => Some e
      | None => op_effect k op
      end
  end.

(** The bindings a traversal read, as a map from key to value. *)
Definition pairs_to_map (pairs : list (bytes * bytes)) : gmap string bytes :=
  list_to_map ((λ p, (string_of_bytes p.1, p.2)) <$> pairs).

(** * Properties *)

(** ** Point reads and writes *)

Lemma MemDB_Get_Set_same key key' value this :
  string_of_bytes key' = string_of_bytes key →
  (MemDB_Get key' (MemDB_Set key value this)).1 = value.
Proof.
  intros Hk. unfold MemDB_Get, MemDB_Set. simpl.
  by rewrite Hk, lookup_insert_eq.
Qed.

Lemma MemDB_Get_Set_other key key' value this :
  string_of_bytes key' ≠ string_of_bytes key →
  (MemDB_Get key' (MemDB_Set key value this)).1 = (MemDB_Get key' this).1.
Proof.
  intros Hk. unfold MemDB_Get, MemDB_Set. simpl.
  by rewrite lookup_insert_ne.
Qed.

Lemma MemDB_Get_Delete_same key key' this :
  string_of_bytes key' = string_of_bytes key →
  (MemDB_Get key' (MemDB_Delete key this)).1 = None.
Proof.
  intros Hk. unfold MemDB_Get, MemDB_Delete. simpl.
  by rewrite Hk, lookup_delete_eq.
Qed.

Lemma MemDB_Get_Delete_other key key' this :
  string_of_bytes key' ≠ string_of_bytes key →
  (MemDB_Get key' (MemDB_Delete key this)).1 = (MemDB_Get key' this).1.
Proof.
  intros Hk. unfold MemDB_Get, MemDB_Delete. simpl.
  by rewrite lookup_delete_ne.
Qed.

Lemma MemDB_Get_run_call k c this :
  (MemDB_Get k (run_call this c)).1 =
  if touches k c then
    match c with CallSet _ value => value | CallDelete _ => None end
  else (MemDB_Get k this).1.
Proof.
  unfold touches. destruct c as [key value|key]; simpl; case_bool_decide.
  - by apply MemDB_Get_Set_same.
  - by apply MemDB_Get_Set_other.
  - by apply MemDB_Get_Delete_same.
  - by apply MemDB_Get_Delete_other.
Qed.

Lemma last_call_None k cs :
  last_call k cs = None ↔ Forall (λ c, touches k c = false) cs.
Proof.
  induction cs as [|c cs IH]; simpl.
  - split; [constructor|done].
  - rewrite Forall_cons. destruct (last_call k cs) eqn:Hl.
    + split; [done|]. intros [_ H]. by apply IH in H.
    + destruct (touches k c); split; try done.
      * by intros [? _].
      * intros _. split; [done|]. by apply IH.
Qed.

(** [last_call] picks the call on [k] after which no call is on [k]. *)
Lemma last_call_Some k cs c :
  last_call k cs = Some c ↔
  ∃ before after,
    cs = before ++ c :: after ∧ touches k c = true
    ∧ Forall (λ c', touches k c' = false) after.
Proof.
  induction cs as [|c0 cs IH]; simpl.
  - split; [done|]. intros (before & after & Heq & _). by destruct before.
  - split.
    + destruct (last_call k cs) as [c'|] eqn:Hl.
      * intros [= ->]. destruct (proj1 IH eq_refl)
          as (before & after & -> & Ht & Hafter).
        by exists (c0 :: before), after.
      * destruct (touches k c0) eqn:Ht0; [|done]. intros [= ->].
        exists [], cs. by rewrite <-last_call_None.
    + intros (before & after & Heq & Ht & Hafter).
      destruct before as [|c1 before]; simplify_eq/=.
      * apply last_call_None in Hafter. by rewrite Hafter, Ht.
      * rewrite (proj2 IH); [done|]. by exists before, after.
Qed.

(** A history run on any store: the last call on [k] decides, and a key no
    call is on keeps what the store had. *)
Lemma MemDB_Get_run_calls k cs this :
  (MemDB_Get k (run_calls cs this)).1 =
  match last_call k cs with
  | Some (CallSet _ value) => value
  | Some (CallDelete _) => None
  | None => (MemDB_Get k this).1
  end.
Proof.
  revert this. induction cs as [|c cs IH]; intros this; [done|].
  change (run_calls (c :: cs) this) with (run_calls cs (run_call this c)).
  rewrite IH. cbn [last_call].
  destruct (last_call k cs) as [c'|]; [done|].
  rewrite MemDB_Get_run_call.
  destruct (touches k c); [by destruct c|done].
Qed.

(** C3: on a store that starts empty, after any sequence of Set and Delete
    calls, Get(k) is the value of the last Set on k when no Delete on k
    follows it, and the absent sentinel (nil) when the last call on k is
    a Delete or no call is on k: [last_writer], the last writer wins. *)
Theorem C3_last_writer_wins (cs : list store_call) (k : bytes) :
  (MemDB_Get k (run_calls cs NewMemDB)).1 = last_writer k cs.
Proof.
  rewrite MemDB_Get_run_calls. unfold last_writer.
  destruct (last_call k cs) as [[]|]; done.
Qed.

(** C9: for a key that is not in the mapping, Get returns the nil
    sentinel, a plain value and no error, and the store it leaves is the
    store it was given. *)
Theorem C9_Get_absent_key (this : MemDB) (k : bytes) :
  db this !! string_of_bytes k = None →
  MemDB_Get k this = (None, this).
Proof. intros Hk. unfold MemDB_Get. by rewrite Hk. Qed.

Lemma C9_Get_absent_key_witness :
  db store_acb !! string_of_bytes (Some "z") = None
  ∧ MemDB_Get (Some "z") store_acb = (None, store_acb).
Proof.
  split; [reflexivity|].
  apply (C9_Get_absent_key store_acb (Some "z")). reflexivity.
Defined.

(** Get never writes, whatever the key. *)
Lemma MemDB_Get_no_write k this : (MemDB_Get k this).2 = this.
Proof. done. Qed.

(** C10: after Set(k, nil) the key is in the mapping, bound to nil, and
    Get(k) returns nil, which is also what Get(k) returns on any store
    where k is not bound: Get cannot tell the two apart. *)
Theorem C10_nil_value_reads_as_absent (k : bytes) (this other : MemDB) :
  db other !! string_of_bytes k = None →
  db (MemDB_Set k None this) !! string_of_bytes k = Some None
  ∧ (MemDB_Get k (MemDB_Set k None this)).1 = None
  ∧ (MemDB_Get k (MemDB_Set k None this)).1 = (MemDB_Get k other).1.
Proof.
  intros Hk. split; [apply lookup_insert_eq|].
  rewrite MemDB_Get_Set_same by done.
  by rewrite (C9_Get_absent_key other k Hk).
Qed.

Lemma C10_nil_value_reads_as_absent_witness :
  db store_acb !! string_of_bytes (Some "z") = None
  ∧ db (MemDB_Set (Some "z") None store_acb) !! string_of_bytes (Some "z")
    = Some None
  ∧ (MemDB_Get (Some "z") (MemDB_Set (Some "z") None store_acb)).1 = None
  ∧ (MemDB_Get (Some "z") (MemDB_Set (Some "z") None store_acb)).1
    = (MemDB_Get (Some "z") store_acb).1.
Proof.
  split; [reflexivity|].
  apply (C10_nil_value_reads_as_absent (Some "z") store_acb store_acb).
  reflexivity.
Defined.

(** ** Batches *)

Lemma memDBBatch_Write_Set key value mBatch this :
  memDBBatch_Write (memDBBatch_Set key value mBatch) this
  = MemDB_Set key value (memDBBatch_Write mBatch this).
Proof. unfold memDBBatch_Write. simpl. by rewrite fold_left_app. Qed.

Lemma memDBBatch_Write_Delete key mBatch this :
  memDBBatch_Write (memDBBatch_Delete key mBatch) this
  = MemDB_Delete key (memDBBatch_Write mBatch this).
Proof. unfold memDBBatch_Write. simpl. by rewrite fold_left_app. Qed.

(** Calls appended to a batch that already holds operations: Write runs
    the operations held before, then the new calls, in order. *)
Lemma memDBBatch_Write_batch_calls cs mBatch this :
  memDBBatch_Write (batch_calls cs mBatch) this
  = run_calls cs (memDBBatch_Write mBatch this).
Proof.
  revert mBatch. induction cs as [|c cs IH]; intros mBatch; [done|].
  change (batch_calls (c :: cs) mBatch)
    with (batch_calls cs (batch_call mBatch c)).
  rewrite IH. unfold run_calls at 2. cbn [fold_left]. f_equal.
  destruct c; simpl.
  - apply memDBBatch_Write_Set.
  - apply memDBBatch_Write_Delete.
Qed.

(** A batch records its calls in the order they were made. *)
Lemma ops_batch_calls cs mBatch :
  ops (batch_calls cs mBatch)
  = ops mBatch
    ++ map (λ c, match c with
                 | CallSet key value => mkOperation opTypeSet key value
                 | CallDelete key => mkOperation opTypeDelete key None
                 end) cs.
Proof.
  revert mBatch. induction cs as [|c cs IH]; intros mBatch; simpl.
  - by rewrite app_nil_r.
  - unfold batch_calls in *. rewrite IH. destruct c; simpl;
      by rewrite <-app_assoc.
Qed.

(** C4: Write applies the operations of a batch to the mapping in the
    order Batch.Set and Batch.Delete appended them, a Set as the store's
    Set (overwrite) and a Delete as the store's Delete (remove if
    present); for the batch Set(x,1), Delete(x), Set(x,2), Get(x) after
    Write is 2 on every store. *)
Theorem C4_Write_applies_in_order (cs : list store_call) (this : MemDB) :
  memDBBatch_Write (batch_calls cs MemDB_NewBatch) this = run_calls cs this
  ∧ (MemDB_Get (Some "x")
       (memDBBatch_Write
          (memDBBatch_Set (Some "x") (Some "2")
             (memDBBatch_Delete (Some "x")
                (memDBBatch_Set (Some "x") (Some "1") MemDB_NewBatch)))
          this)).1 = Some "2".
Proof.
  split.
  - apply memDBBatch_Write_batch_calls.
  - rewrite memDBBatch_Write_Set. by apply MemDB_Get_Set_same.
Qed.

(** ** The byte order on keys *)

Lemma string_compare_refl (s : string) : String.compare s s = Eq.
Proof.
  pose proof (String.compare_antisym s s) as H.
  destruct (String.compare s s); done.
Qed.

Lemma string_geb_le (a b : string) : string_geb a b = true ↔ String.le b a.
Proof. unfold string_geb, String.le. by rewrite Is_true_true. Qed.

Lemma string_geb_false_lt (a b : string) :
  string_geb a b = false ↔ string_lt a b.
Proof.
  unfold string_geb, string_lt, String.leb.
  rewrite (String.compare_antisym b a).
  destruct (String.compare a b); simpl; split; done.
Qed.

Lemma string_lt_le_ne (a b : string) :
  string_lt a b ↔ String.le a b ∧ a ≠ b.
Proof.
  unfold string_lt, String.le, String.leb. split.
  - intros H. rewrite H. split; [done|].
    intros ->. by rewrite string_compare_refl in H.
  - intros [Hle Hne]. destruct (String.compare a b) eqn:Hc; [|done..].
    by apply String.compare_eq_iff in Hc.
Qed.

Lemma string_lt_not_le (a b : string) : string_lt a b ↔ ¬ String.le b a.
Proof.
  rewrite <-string_geb_false_lt, <-string_geb_le. by destruct (string_geb a b).
Qed.

Lemma string_app_nil (s : string) : "" +:+ s = s.
Proof. done. Qed.

Lemma string_app_cons c (p s : string) : String c p +:+ s = String c (p +:+ s).
Proof. done. Qed.

(** [string_lt] is the lexicographic order on bytes: [a] is below [b] when
    [a] is a proper prefix of [b], or at the first place where they differ
    the byte of [a] is the smaller one. *)
Lemma string_lt_lexicographic (a b : string) :
  string_lt a b ↔
  (∃ c t, b = a +:+ String c t)
  ∨ (∃ p x y ta tb,
       a = p +:+ String x ta ∧ b = p +:+ String y tb
       ∧ (Ascii.N_of_ascii x < Ascii.N_of_ascii y)%N).
Proof.
  unfold string_lt. revert b. induction a as [|x a IH]; intros [|y b]; simpl.
  - split; [done|]. intros [(c & t & [=])|(p & ? & ? & ? & ? & Hp & _)];
      by destruct p.
  - split; [|done]. intros _. left. by exists y, b.
  - split; [done|]. intros [(c & t & [=])|(p & ? & ? & ? & ? & _ & Hp & _)];
      by destruct p.
  - unfold Ascii.compare.
    destruct (N.compare_spec (Ascii.N_of_ascii x) (Ascii.N_of_ascii y))
      as [Heq|Hlt|Hgt].
    + apply (f_equal Ascii.ascii_of_N) in Heq.
      rewrite !Ascii.ascii_N_embedding in Heq. subst y. rewrite IH. split.
      * intros [(c & t & ->)|(p & x' & y' & ta & tb & -> & -> & Hxy)].
        -- left. by exists c, t.
        -- right. by exists (String x p), x', y', ta, tb.
      * intros [(c & t & [= ->])|(p & x' & y' & ta & tb & Ha & Hb & Hxy)].
        -- left. by exists c, t.
        -- destruct p as [|z p];
             rewrite ?string_app_nil, ?string_app_cons in Ha, Hb;
             simplify_eq; [lia|].
           right. by exists p, x', y', ta, tb.
    + split; [|done]. intros _. right. by exists "", x, y, a, b.
    + split; [done|].
      intros [(c & t & [= -> _])|(p & x' & y' & ta & tb & Ha & Hb & Hxy)];
        [lia|].
      destruct p as [|z p];
        rewrite ?string_app_nil, ?string_app_cons in Ha, Hb; simplify_eq; lia.
Qed.

(** The test of [getSortedKeys] keeps the keys [>= start]. *)
Lemma bytes_Compare_keep (key : string) (start : bytes) :
  negb (bytes_Compare (bytes_of_string key) start <? 0) = true
  ↔ String.le (string_of_bytes start) key.
Proof.
  rewrite <-string_geb_le. unfold bytes_Compare, string_geb, String.leb. simpl.
  rewrite (String.compare_antisym (string_of_bytes start) key).
  destruct (String.compare key (string_of_bytes start)); simpl; split; done.
Qed.

(** [strings.HasPrefix] is the byte-prefix relation. *)
Lemma substring_prefix_app (p t : string) :
  String.substring 0 (String.length p) (p +:+ t) = p.
Proof. induction p as [|a p IH]; simpl; [by destruct t|by rewrite IH]. Qed.

Lemma substring_prefix_inv (p s : string) :
  String.substring 0 (String.length p) s = p → ∃ t, s = p +:+ t.
Proof.
  revert s. induction p as [|a p IH]; intros s; simpl.
  - intros _. by exists s.
  - destruct s as [|b s]; [done|]. intros [= -> Hs].
    destruct (IH s Hs) as [t ->]. by exists t.
Qed.

Lemma string_length_app (p t : string) :
  String.length (p +:+ t) = (String.length p + String.length t)%nat.
Proof. induction p as [|a p IH]; simpl; [done|by rewrite IH]. Qed.

Lemma strings_HasPrefix_spec (s prefix : string) :
  strings_HasPrefix s prefix = true ↔ ∃ t, s = prefix +:+ t.
Proof.
  unfold strings_HasPrefix. rewrite andb_true_iff, Nat.leb_le, String.eqb_eq.
  split.
  - intros [_ Hs]. by apply substring_prefix_inv.
  - intros [t ->]. split; [rewrite string_length_app; lia|].
    apply substring_prefix_app.
Qed.

(** ** Sorting and collecting keys *)

Lemma sort_Strings_Sorted l : Sorted String.le (sort_Strings l).
Proof. apply Sorted_merge_sort; apply _. Qed.

Lemma sort_Strings_perm l : sort_Strings l ≡ₚ l.
Proof. apply merge_sort_Permutation. Qed.

(** The sorted result does not depend on the order the keys came in. *)
Lemma sort_Strings_Permutation l1 l2 :
  l1 ≡ₚ l2 → sort_Strings l1 = sort_Strings l2.
Proof.
  intros Hp. apply (Sorted_unique String.le); try apply sort_Strings_Sorted.
  by rewrite !sort_Strings_perm.
Qed.

Lemma elem_of_sort_Strings k l : k ∈ sort_Strings l ↔ k ∈ l.
Proof. by rewrite sort_Strings_perm. Qed.

Lemma NoDup_sort_Strings l : NoDup (sort_Strings l) ↔ NoDup l.
Proof. by rewrite sort_Strings_perm. Qed.

(** Sorted keys without repetition ascend strictly. *)
Lemma Sorted_le_NoDup_lt l :
  Sorted String.le l → NoDup l → StronglySorted string_lt l.
Proof.
  intros Hs%Sorted_StronglySorted; [|apply _].
  induction Hs as [|x l Hs IH Hx]; intros Hnd; [constructor|].
  apply NoDup_cons in Hnd as [Hx' Hnd]. constructor; [auto|].
  rewrite Forall_forall in Hx |- *. intros y Hy.
  apply string_lt_le_ne. split; [auto|]. by intros ->.
Qed.

Lemma collect_keys_filter keep ks0 range :
  collect_keys keep ks0 range
  = ks0 ++ filter (λ key, keep key = true) range.
Proof.
  unfold collect_keys. revert ks0.
  induction range as [|key range IH]; intros ks0; simpl.
  - by rewrite app_nil_r.
  - rewrite IH, filter_cons. destruct (keep key) eqn:Hk.
    + rewrite decide_True by done. by rewrite <-app_assoc.
    + by rewrite decide_False by done.
Qed.

Lemma collect_keys_order keep range range' :
  range ≡ₚ range' →
  sort_Strings (collect_keys keep [] range)
  = sort_Strings (collect_keys keep [] range').
Proof.
  intros Hp. apply sort_Strings_Permutation.
  rewrite !collect_keys_filter. simpl. by rewrite Hp.
Qed.

Lemma elem_of_range_keys k this : k ∈ range_keys this ↔ is_Some (db this !! k).
Proof.
  unfold range_keys. rewrite list_elem_of_fmap. split.
  - intros ([k' v] & -> & Hin). apply elem_of_map_to_list in Hin. by exists v.
  - intros [v Hv]. exists (k, v). split; [done|].
    by apply elem_of_map_to_list.
Qed.

Lemma NoDup_range_keys this : NoDup (range_keys this).
Proof. apply NoDup_fst_map_to_list. Qed.

Lemma elem_of_sorted_collect keep this k :
  k ∈ sort_Strings (collect_keys keep [] (range_keys this))
  ↔ is_Some (db this !! k) ∧ keep k = true.
Proof.
  rewrite elem_of_sort_Strings, collect_keys_filter. simpl.
  rewrite list_elem_of_filter, elem_of_range_keys. tauto.
Qed.

Lemma sorted_collect_ascending keep this :
  StronglySorted string_lt
    (sort_Strings (collect_keys keep [] (range_keys this))).
Proof.
  apply Sorted_le_NoDup_lt; [apply sort_Strings_Sorted|].
  apply NoDup_sort_Strings. rewrite collect_keys_filter. simpl.
  apply NoDup_filter, NoDup_range_keys.
Qed.

(** ** Traversals *)

Section traversal.
Variable this : MemDB.
Variable ks : list string.
Variable st : bytes.

Lemma Next_at_end i :
  Z.of_nat (length ks) - 1 ≤ i →
  memDBIterator_Next (mkIterator i ks st) = (false, mkIterator i ks st).
Proof.
  intros Hi. unfold memDBIterator_Next. simpl.
  destruct (Z.geb_spec i (Z.of_nat (length ks) - 1)); [done|lia].
Qed.

Lemma Next_before_end i :
  i < Z.of_nat (length ks) - 1 →
  memDBIterator_Next (mkIterator i ks st)
  = (true, mkIterator (i + 1) ks st).
Proof.
  intros Hi. unfold memDBIterator_Next. simpl.
  destruct (Z.geb_spec i (Z.of_nat (length ks) - 1)); [lia|done].
Qed.

Lemma Key_in_range (i : nat) k :
  ks !! i = Some k →
  memDBIterator_Key (mkIterator (Z.of_nat i) ks st) = Some (Some k).
Proof.
  intros Hk. unfold memDBIterator_Key. simpl.
  destruct (Z.leb_spec 0 (Z.of_nat i)); [|lia].
  by rewrite Nat2Z.id, Hk.
Qed.

(** With the cursor just before index [i], the Next/Key/Value loop reads
    the keys from index [i] on, and any fuel beyond their number is
    enough. *)
Lemma traverse_loop_drop fuel (i : nat) :
  (i ≤ length ks)%nat → (length ks - i < fuel)%nat →
  traverse_loop fuel (mkIterator (Z.of_nat i - 1) ks st) this
  = Done (read_pair this <$> drop i ks).
Proof.
  revert i. induction fuel as [|fuel IH]; intros i Hi Hfuel; [lia|].
  cbn [traverse_loop].
  destruct (decide (i = length ks)) as [->|Hne].
  - rewrite Next_at_end by lia. by rewrite drop_all.
  - rewrite Next_before_end by lia.
    destruct (lookup_lt_is_Some_2 ks i) as [k Hk]; [lia|].
    replace (Z.of_nat i - 1 + 1) with (Z.of_nat i) by lia.
    unfold memDBIterator_Value. rewrite (Key_in_range i k Hk).
    cbn [MemDB_Get].
    replace (Z.of_nat i) with (Z.of_nat (S i) - 1) by lia.
    rewrite IH by lia. by rewrite (drop_S _ _ _ Hk).
Qed.

(** With the cursor on index [i], the read-then-Next loop reads the keys
    from index [i] on. *)
Lemma traverse_from_cursor_loop_drop fuel (i : nat) :
  (i < length ks)%nat → (length ks - i ≤ fuel)%nat →
  traverse_from_cursor_loop fuel (mkIterator (Z.of_nat i) ks st) this
  = Done (read_pair this <$> drop i ks).
Proof.
  revert i. induction fuel as [|fuel IH]; intros i Hi Hfuel; [lia|].
  cbn [traverse_from_cursor_loop].
  destruct (lookup_lt_is_Some_2 ks i) as [k Hk]; [lia|].
  unfold memDBIterator_Value. rewrite (Key_in_range i k Hk).
  cbn [MemDB_Get]. rewrite (drop_S _ _ _ Hk).
  destruct (decide (S i = length ks)) as [Hlen|Hne].
  - rewrite Next_at_end by lia. by rewrite drop_ge by lia.
  - rewrite Next_before_end by lia.
    replace (Z.of_nat i + 1) with (Z.of_nat (S i)) by lia.
    by rewrite IH by lia.
Qed.

Lemma traverse_before_first :
  traverse (mkIterator (-1) ks st) this = Done (read_pair this <$> ks).
Proof.
  unfold traverse. cbn [keys].
  apply (traverse_loop_drop (S (length ks)) 0); lia.
Qed.

Lemma traverse_at_first k rest :
  ks = k :: rest →
  traverse (mkIterator 0 ks st) this = Done (read_pair this <$> rest).
Proof.
  intros Hks. unfold traverse. cbn [keys].
  change 0 with (Z.of_nat 1 - 1).
  rewrite (traverse_loop_drop (S (length ks)) 1); subst; simpl; [done|lia..].
Qed.

Lemma traverse_from_cursor_at_first :
  ks ≠ [] →
  traverse_from_cursor (mkIterator 0 ks st) this
  = Done (read_pair this <$> ks).
Proof.
  intros Hks. unfold traverse_from_cursor. cbn [keys].
  apply (traverse_from_cursor_loop_drop (S (length ks)) 0); [|lia].
  destruct ks; simpl; [done|lia].
Qed.
End traversal.

(** The traversal loop stops by itself: it never runs out of the fuel
    [traverse] gives it, whatever the cursor. *)
Lemma traverse_loop_total fuel it this :
  (0 < fuel)%nat →
  (Z.of_nat (length (keys it)) - 1 - last it < Z.of_nat fuel) →
  traverse_loop fuel it this ≠ OutOfFuel.
Proof.
  revert it. induction fuel as [|fuel IH]; intros [i ks st] Hpos Hfuel;
    simpl in Hfuel; [lia|cbn [traverse_loop]].
  destruct (Z_lt_le_dec i (Z.of_nat (length ks) - 1)) as [Hlt|Hge].
  - rewrite Next_before_end by done.
    destruct (memDBIterator_Key _) as [k|]; [|done].
    unfold memDBIterator_Value.
    destruct (memDBIterator_Key _) as [k'|]; [|done].
    cbn [MemDB_Get]. specialize (IH (mkIterator (i + 1) ks st)).
    destruct (traverse_loop fuel _ this); simpl; [done|done|].
    exfalso. apply IH; [lia|simpl; lia|done].
  - by rewrite Next_at_end by done.
Qed.

Lemma traverse_terminates it this : traverse it this ≠ OutOfFuel.
Proof.
  destruct (Z_lt_le_dec (last it) (-1)) as [Hlt|Hge].
  - destruct it as [i ks st]. simpl in Hlt. unfold traverse.
    cbn [keys traverse_loop]. rewrite Next_before_end by lia.
    unfold memDBIterator_Key. simpl.
    by destruct (Z.leb_spec 0 (i + 1)); [lia|].
  - apply traverse_loop_total; lia.
Qed.

Lemma traverse_total it this :
  -1 ≤ last it → ∃ pairs, traverse it this = Done pairs.
Proof.
  destruct it as [i ks st]. simpl. intros Hi.
  destruct (Z_lt_le_dec i (Z.of_nat (length ks))) as [Hlt|Hge].
  - exists (read_pair this <$> drop (Z.to_nat (i + 1)) ks).
    unfold traverse. cbn [keys].
    replace i with (Z.of_nat (Z.to_nat (i + 1)) - 1) at 1 by lia.
    apply traverse_loop_drop; lia.
  - exists []. unfold traverse. cbn [keys traverse_loop].
    by rewrite Next_at_end by lia.
Qed.

(** The keys a traversal visits depend on the iterator alone, not on the
    store its values are read from. *)
Lemma visited_emit p o : visited (emit p o) = (p.1 ::.) <$> visited o.
Proof. by destruct o. Qed.

Lemma visited_traverse_loop_store fuel it this this' :
  visited (traverse_loop fuel it this) = visited (traverse_loop fuel it this').
Proof.
  revert it. induction fuel as [|fuel IH]; intros it; [done|].
  cbn [traverse_loop]. destruct (memDBIterator_Next it) as [[] it']; [|done].
  unfold memDBIterator_Value.
  destruct (memDBIterator_Key it') as [k|]; [|done].
  cbn [MemDB_Get]. by rewrite !visited_emit, (IH it').
Qed.

Lemma visited_read_pairs this (l : list string) :
  visited (Done (read_pair this <$> l)) = Some (Some <$> l).
Proof.
  simpl. f_equal. rewrite <-list_fmap_compose. by apply list_fmap_ext.
Qed.

(** ** The in-place reversal of [getSortedKeys] *)

Section reversal.
Variable ks0 : list string.
#[local] Abbreviation n := (length ks0).
#[local] Abbreviation mirrored := (mirrored ks0).

Lemma swap_rounds_S m l :
  swap_rounds n (S m) l = swap_keys m (n - m - 1) (swap_rounds n m l).
Proof. unfold swap_rounds. by rewrite seq_S, fold_left_app. Qed.

(** Every swap of the loop is within bounds. *)
Lemma swap_keys_in_range m l :
  (2 * m + 2 ≤ n)%nat → mirrored m l →
  ∃ temp kj,
    l !! m = Some temp ∧ l !! (n - m - 1)%nat = Some kj
    ∧ ks0 !! m = Some temp ∧ ks0 !! (n - m - 1)%nat = Some kj
    ∧ swap_keys m (n - m - 1) l = <[(n - m - 1)%nat := temp]> (<[m := kj]> l).
Proof.
  intros Hm [Hlen Hl].
  destruct (lookup_lt_is_Some_2 ks0 m) as [temp Ht]; [lia|].
  destruct (lookup_lt_is_Some_2 ks0 (n - m - 1)) as [kj Hj]; [lia|].
  assert (l !! m = Some temp) as Hlm.
  { rewrite Hl by lia. by rewrite decide_False by lia. }
  assert (l !! (n - m - 1)%nat = Some kj) as Hlj.
  { rewrite Hl by lia. by rewrite decide_False by lia. }
  exists temp, kj. repeat split; try done.
  unfold swap_keys. by rewrite Hlm, Hlj.
Qed.

Lemma mirrored_swap_rounds m :
  (2 * m ≤ n)%nat → mirrored m (swap_rounds n m ks0).
Proof.
  induction m as [|m IH]; intros Hm.
  - split; [done|]. intros j Hj. by rewrite decide_False by lia.
  - specialize (IH ltac:(lia)).
    destruct (swap_keys_in_range m _ ltac:(lia) IH)
      as (temp & kj & _ & _ & Ht & Hj & Hswap).
    destruct IH as [Hlen Hl].
    rewrite swap_rounds_S, Hswap. split.
    + by rewrite !length_insert.
    + intros j Hjn. destruct (decide (j = n - m - 1)%nat) as [->|Hj1].
      { rewrite list_lookup_insert_eq by (rewrite length_insert; lia).
        rewrite decide_True by lia.
        by replace (n - 1 - (n - m - 1))%nat with m by lia. }
      rewrite list_lookup_insert_ne by done.
      destruct (decide (j = m)) as [->|Hj2].
      { rewrite list_lookup_insert_eq by lia.
        rewrite decide_True by lia.
        by replace (n - 1 - m)%nat with (n - m - 1)%nat by lia. }
      rewrite list_lookup_insert_ne by done. rewrite Hl by done.
      repeat case_decide; try done; lia.
Qed.

Lemma swap_rounds_half : swap_rounds n (n / 2) ks0 = reverse ks0.
Proof.
  pose proof (Nat.div_mod_eq n 2) as Hdiv.
  pose proof (Nat.mod_upper_bound n 2 ltac:(done)) as Hmod.
  destruct (mirrored_swap_rounds (n / 2) ltac:(lia)) as [Hlen Hl].
  apply list_eq. intros j. destruct (decide (j < n)%nat) as [Hj|Hj].
  - rewrite Hl by done. rewrite reverse_lookup by done.
    case_decide; f_equal; lia.
  - rewrite !lookup_ge_None_2; [done|rewrite length_reverse; lia|lia].
Qed.
End reversal.

Lemma reverse_in_place_reverse keys : reverse_in_place keys = reverse keys.
Proof. apply swap_rounds_half. Qed.

#[local] Instance string_lt_trans : Transitive string_lt.
Proof.
  intros a b c [Hab Hne]%string_lt_le_ne [Hbc Hne']%string_lt_le_ne.
  apply string_lt_le_ne. split; [by etrans|].
  intros ->. apply Hne. by apply (anti_symm String.le).
Qed.

Lemma string_lt_le (a b : string) : string_lt a b → String.le a b.
Proof. by intros [? _]%string_lt_le_ne. Qed.

(** ** What the constructors capture *)

Lemma IteratorPrefix_eq prefix this :
  MemDB_IteratorPrefix prefix this
  = mkIterator (-1)
      (sort_Strings
         (collect_keys
            (λ key, strings_HasPrefix key (string_of_bytes prefix))
            [] (range_keys this)))
      None.
Proof. done. Qed.

Lemma elem_of_keys_IteratorPrefix prefix this k :
  k ∈ keys (MemDB_IteratorPrefix prefix this)
  ↔ is_Some (db this !! k) ∧ ∃ t, k = string_of_bytes prefix +:+ t.
Proof.
  rewrite IteratorPrefix_eq. cbn [keys].
  by rewrite elem_of_sorted_collect, strings_HasPrefix_spec.
Qed.

Lemma getSortedKeys_eq start isReverse this :
  MemDB_getSortedKeys start isReverse this
  = let ascending :=
      sort_Strings
        (collect_keys
           (λ key, negb (bytes_Compare (bytes_of_string key) start <? 0))
           [] (range_keys this)) in
    if isReverse then reverse ascending else ascending.
Proof.
  unfold MemDB_getSortedKeys. destruct isReverse; [|done].
  apply reverse_in_place_reverse.
Qed.

Lemma elem_of_getSortedKeys start isReverse this k :
  k ∈ MemDB_getSortedKeys start isReverse this
  ↔ is_Some (db this !! k) ∧ String.le (string_of_bytes start) k.
Proof.
  rewrite getSortedKeys_eq. cbv zeta.
  destruct isReverse; [rewrite elem_of_reverse|];
    by rewrite elem_of_sorted_collect, bytes_Compare_keep.
Qed.

Lemma getSortedKeys_forward start this :
  StronglySorted string_lt (MemDB_getSortedKeys start false this).
Proof. rewrite getSortedKeys_eq. apply sorted_collect_ascending. Qed.

Lemma getSortedKeys_reverse start this :
  StronglySorted (flip string_lt) (MemDB_getSortedKeys start true this).
Proof.
  rewrite getSortedKeys_eq. cbv zeta.
  apply Sorted_StronglySorted; [apply _|].
  apply Sorted_reverse, StronglySorted_Sorted, sorted_collect_ascending.
Qed.

Lemma NoDup_getSortedKeys start isReverse this :
  NoDup (MemDB_getSortedKeys start isReverse this).
Proof.
  rewrite getSortedKeys_eq. cbv zeta.
  assert (NoDup (sort_Strings
    (collect_keys
       (λ key, negb (bytes_Compare (bytes_of_string key) start <? 0))
       [] (range_keys this)))) as Hnd.
  { apply NoDup_sort_Strings. rewrite collect_keys_filter. simpl.
    apply NoDup_filter, NoDup_range_keys. }
  destruct isReverse; [by rewrite reverse_Permutation|done].
Qed.

(** ** Seek *)

Lemma seek_from_None i ks point :
  seek_from i ks point = None ↔ Forall (λ key, string_lt key point) ks.
Proof.
  revert i. induction ks as [|key ks IH]; intros i; simpl.
  - split; [constructor|done].
  - rewrite Forall_cons, <-string_geb_false_lt.
    destruct (string_geb key point); [split; [done|by intros [? _]]|].
    rewrite IH. tauto.
Qed.

(** A successful Seek lands on the first key [>= point]. *)
Lemma seek_from_Some i ks point j :
  seek_from i ks point = Some j →
  ∃ before key after,
    ks = before ++ key :: after ∧ j = i + Z.of_nat (length before)
    ∧ String.le point key ∧ Forall (λ key', string_lt key' point) before.
Proof.
  revert i. induction ks as [|key ks IH]; intros i; simpl; [done|].
  destruct (string_geb key point) eqn:Hk.
  - intros [= <-]. exists [], key, ks. simpl.
    repeat split; [lia|by apply string_geb_le|constructor].
  - intros (before & key' & after & -> & -> & Hle & Hlt)%IH.
    exists (key :: before), key', after. simpl.
    repeat split; [lia|done|]. constructor; [|done].
    by apply string_geb_false_lt.
Qed.

Lemma seek_from_head ks point key rest :
  ks = key :: rest → String.le point key → seek_from 0 ks point = Some 0.
Proof. intros -> Hle%string_geb_le. simpl. by rewrite Hle. Qed.

Lemma newMemDBIteratorWithArgs_nil_start ks :
  newMemDBIteratorWithArgs ks None = mkIterator (-1) ks None.
Proof. done. Qed.

Lemma newMemDBIteratorWithArgs_first ks (s : string) key rest :
  ks = key :: rest → String.le s key →
  newMemDBIteratorWithArgs ks (Some s) = mkIterator 0 ks (Some s).
Proof.
  intros Hks Hle. unfold newMemDBIteratorWithArgs, memDBIterator_Seek.
  change (seek_from 0 (keys (mkIterator (-1) ks (Some s)))
            (string_of_bytes (Some s))) with (seek_from 0 ks s).
  by rewrite (seek_from_head ks s key rest).
Qed.

Lemma newMemDBIteratorWithArgs_empty (s : string) :
  newMemDBIteratorWithArgs [] (Some s) = mkIterator (-1) [] (Some s).
Proof. done. Qed.

(** The shape of every iterator [IteratorPrefixWithStart] returns: the
    cursor is before the first key when start is nil or no key was
    captured, and on the first key otherwise. *)
Lemma IteratorPrefixWithStart_shape Prefix start isReverse this :
  let ks := MemDB_getSortedKeys start isReverse this in
  MemDB_IteratorPrefixWithStart Prefix start isReverse this
  = mkIterator (match start, ks with Some _, _ :: _ => 0 | _, _ => -1 end)
      ks start.
Proof.
  cbv zeta. unfold MemDB_IteratorPrefixWithStart.
  destruct start as [s|]; [|done].
  destruct (MemDB_getSortedKeys (Some s) isReverse this) as [|key rest] eqn:Hks;
    [done|].
  apply (newMemDBIteratorWithArgs_first _ s key rest eq_refl).
  assert (key ∈ MemDB_getSortedKeys (Some s) isReverse this) as Hin
    by (rewrite Hks; left).
  by apply elem_of_getSortedKeys in Hin as [_ ?].
Qed.

(** Whatever store the values are read from, a traversal of an iterator of
    [IteratorPrefixWithStart] visits captured keys only. *)
Lemma IteratorPrefixWithStart_visited Prefix start isReverse this later :
  ∃ ks,
    visited (traverse (MemDB_IteratorPrefixWithStart Prefix start isReverse this)
               later) = Some (Some <$> ks)
    ∧ ks ⊆ MemDB_getSortedKeys start isReverse this.
Proof.
  rewrite IteratorPrefixWithStart_shape. cbv zeta.
  destruct (MemDB_getSortedKeys start isReverse this) as [|key rest] eqn:Hks.
  - exists []. by destruct start.
  - destruct start as [s|].
    + exists rest. rewrite (traverse_at_first later _ _ key rest eq_refl).
      split; [apply visited_read_pairs|]. set_solver.
    + exists (key :: rest). rewrite traverse_before_first.
      split; [apply visited_read_pairs|done].
Qed.

(** ** The claims about iterators *)

(** C2: the iterator of IteratorPrefix(p), traversed with Next/Key/Value,
    reads exactly the keys of the store that have p as a byte-prefix, each
    once and in strictly ascending byte order; Iterator() is
    IteratorPrefix of the empty prefix and reads every key of the store,
    ascending. *)
Theorem C2_IteratorPrefix_exact_ascending (this : MemDB) (p : bytes) :
  (∃ ks : list string,
     traverse (MemDB_IteratorPrefix p this) this = Done (read_pair this <$> ks)
     ∧ (∀ k, k ∈ ks
             ↔ is_Some (db this !! k) ∧ ∃ t, k = string_of_bytes p +:+ t)
     ∧ StronglySorted string_lt ks)
  ∧ MemDB_Iterator this = MemDB_IteratorPrefix (Some "") this
  ∧ (∃ ks : list string,
       traverse (MemDB_Iterator this) this = Done (read_pair this <$> ks)
       ∧ (∀ k, k ∈ ks ↔ is_Some (db this !! k))
       ∧ StronglySorted string_lt ks).
Proof.
  assert (∀ q, ∃ ks : list string,
    traverse (MemDB_IteratorPrefix q this) this = Done (read_pair this <$> ks)
    ∧ (∀ k, k ∈ ks ↔ is_Some (db this !! k) ∧ ∃ t, k = string_of_bytes q +:+ t)
    ∧ StronglySorted string_lt ks) as Hprefix.
  { intros q. exists (keys (MemDB_IteratorPrefix q this)). split; [|split].
    - rewrite IteratorPrefix_eq. apply traverse_before_first.
    - intros k. apply elem_of_keys_IteratorPrefix.
    - rewrite IteratorPrefix_eq. apply sorted_collect_ascending. }
  split; [apply Hprefix|]. split; [done|].
  destruct (Hprefix (Some "")) as (ks & Htr & Hin & Hsorted).
  exists ks. split; [done|]. split; [|done].
  intros k. rewrite Hin. split; [by intros [? _]|].
  intros Hk. split; [done|]. by exists k.
Qed.

(** C5: the keys an iterator visits do not change when Set, or a batch
    Write, is applied to the store after the iterator was built.  A key
    that was not in the store when IteratorPrefix or
    IteratorPrefixWithStart built the iterator is not visited, whatever
    the store has become since ([later]: after Set(key, value), after a
    batch Write, ...) and wherever the key falls in the byte order. *)
Theorem C5_snapshot_stability (it : memDBIterator) (this : MemDB)
  (key prefix start : bytes) (isReverse : bool) :
  db this !! string_of_bytes key = None →
  (∀ k v, visited (traverse it (MemDB_Set k v this))
          = visited (traverse it this))
  ∧ (∀ mBatch, visited (traverse it (memDBBatch_Write mBatch this))
               = visited (traverse it this))
  ∧ (∀ later, ∃ ks : list string,
       visited (traverse (MemDB_IteratorPrefix prefix this) later)
       = Some (Some <$> ks)
       ∧ string_of_bytes key ∉ ks)
  ∧ (∀ later, ∃ ks : list string,
       visited (traverse (MemDB_IteratorPrefixWithStart prefix start
                            isReverse this) later)
       = Some (Some <$> ks)
       ∧ string_of_bytes key ∉ ks).
Proof.
  intros Hfresh. repeat split.
  - intros k v. apply visited_traverse_loop_store.
  - intros mBatch. apply visited_traverse_loop_store.
  - intros later. exists (keys (MemDB_IteratorPrefix prefix this)). split.
    + rewrite IteratorPrefix_eq, traverse_before_first.
      apply visited_read_pairs.
    + rewrite elem_of_keys_IteratorPrefix, Hfresh. by intros [[? [=]] _].
  - intros later.
    destruct (IteratorPrefixWithStart_visited prefix start isReverse this
                later) as (ks & Hvis & Hsub).
    exists ks. split; [done|]. intros Hin%Hsub.
    apply elem_of_getSortedKeys in Hin as [[? Hin] _]. congruence.
Qed.

Lemma C5_snapshot_stability_witness :
  db store_acb !! string_of_bytes (Some "ab") = None
  ∧ ∃ ks : list string,
      visited (traverse (MemDB_IteratorPrefix (Some "a") store_acb)
                 (MemDB_Set (Some "ab") (Some "9") store_acb))
      = Some (Some <$> ks)
      ∧ string_of_bytes (Some "ab") ∉ ks.
Proof.
  split; [reflexivity|].
  apply (C5_snapshot_stability
           (MemDB_Iterator store_acb) store_acb (Some "ab") (Some "a")
           (Some "a") false).
  reflexivity.
Defined.

(** C6: when no captured key is >= target, Seek returns false and the
    iterator it leaves is the iterator it was given, cursor included, so
    the next Next() does what it would have done without the Seek. *)
Theorem C6_failed_Seek_keeps_cursor (it : memDBIterator) (target : bytes) :
  Forall (λ key, string_lt key (string_of_bytes target)) (keys it) →
  memDBIterator_Seek target it = (false, it)
  ∧ last (memDBIterator_Seek target it).2 = last it
  ∧ memDBIterator_Next (memDBIterator_Seek target it).2
    = memDBIterator_Next it.
Proof.
  intros Hall%(seek_from_None 0). unfold memDBIterator_Seek. by rewrite Hall.
Qed.

Lemma C6_failed_Seek_keeps_cursor_witness :
  Forall (λ key, string_lt key (string_of_bytes (Some "d")))
         (keys (MemDB_Iterator store_acb))
  ∧ memDBIterator_Seek (Some "d") (MemDB_Iterator store_acb)
    = (false, MemDB_Iterator store_acb).
Proof.
  assert (Forall (λ key, string_lt key (string_of_bytes (Some "d")))
            (keys (MemDB_Iterator store_acb))) as Hall.
  { vm_compute. repeat constructor. }
  split; [exact Hall|].
  apply (C6_failed_Seek_keeps_cursor (MemDB_Iterator store_acb) (Some "d")).
  exact Hall.
Defined.

(** C7: IteratorPrefixWithStart does not read its prefix argument: two
    calls that differ in the prefix only return the same iterator (same
    captured keys, same cursor), and the captured keys are the keys of the
    store that are >= start, whatever their prefix. *)
Theorem C7_prefix_argument_ignored (this : MemDB) (p1 p2 start : bytes)
  (isReverse : bool) :
  MemDB_IteratorPrefixWithStart p1 start isReverse this
  = MemDB_IteratorPrefixWithStart p2 start isReverse this
  ∧ ∀ k, k ∈ keys (MemDB_IteratorPrefixWithStart p1 start isReverse this)
         ↔ is_Some (db this !! k) ∧ String.le (string_of_bytes start) k.
Proof.
  split; [done|]. intros k. rewrite IteratorPrefixWithStart_shape.
  apply elem_of_getSortedKeys.
Qed.

(** The first captured key of a start-bounded iterator bounds the others:
    it is the least key >= start forward and the greatest in reverse. *)
Lemma getSortedKeys_first_extreme start isReverse this first rest k :
  MemDB_getSortedKeys start isReverse this = first :: rest →
  k ∈ first :: rest →
  if isReverse then String.le k first else String.le first k.
Proof.
  intros Hks Hk.
  destruct isReverse.
  - pose proof (getSortedKeys_reverse start this) as Hs. rewrite Hks in Hs.
    apply StronglySorted_cons in Hs as [Hfirst _].
    apply elem_of_cons in Hk as [->|Hk]; [done|].
    rewrite Forall_forall in Hfirst. by apply string_lt_le, Hfirst.
  - pose proof (getSortedKeys_forward start this) as Hs. rewrite Hks in Hs.
    apply StronglySorted_cons in Hs as [Hfirst _].
    apply elem_of_cons in Hk as [->|Hk]; [done|].
    rewrite Forall_forall in Hfirst. by apply string_lt_le, Hfirst.
Qed.

(** C8: with a non-nil start and a key >= start in the store,
    the iterator of IteratorPrefixWithStart has its cursor on index 0.  The
    first Next() moves it to index 1 when a second key was captured, and
    returns false with the cursor still on 0 when the first key is the only
    one.  Either way the Next/Key/Value traversal reads the keys after the
    first and never the first one, which is the least key >= start forward
    and the greatest key in reverse. *)
Theorem C8_cursor_starts_on_first_key (this : MemDB) (Prefix : bytes)
  (s : string) (isReverse : bool) :
  (∃ k, is_Some (db this !! k) ∧ String.le s k) →
  ∃ first rest,
    MemDB_IteratorPrefixWithStart Prefix (Some s) isReverse this
    = mkIterator 0 (first :: rest) (Some s)
    ∧ memDBIterator_Next
        (MemDB_IteratorPrefixWithStart Prefix (Some s) isReverse this)
      = match rest with
        | [] => (false, mkIterator 0 (first :: rest) (Some s))
        | _ :: _ => (true, mkIterator 1 (first :: rest) (Some s))
        end
    ∧ traverse (MemDB_IteratorPrefixWithStart Prefix (Some s) isReverse this)
        this = Done (read_pair this <$> rest)
    ∧ (first ∉ rest)
    ∧ is_Some (db this !! first) ∧ String.le s first
    ∧ ∀ k, is_Some (db this !! k) → String.le s k →
           if isReverse then String.le k first else String.le first k.
Proof.
  intros (k0 & Hk0 & Hle0).
  assert (k0 ∈ MemDB_getSortedKeys (Some s) isReverse this) as Hin0
    by by apply elem_of_getSortedKeys.
  destruct (MemDB_getSortedKeys (Some s) isReverse this)
    as [|first rest] eqn:Hks; [by apply elem_of_nil in Hin0|].
  assert (first ∈ MemDB_getSortedKeys (Some s) isReverse this) as Hfirst
    by (rewrite Hks; left).
  apply elem_of_getSortedKeys in Hfirst as [Hfirst Hle].
  pose proof (NoDup_getSortedKeys (Some s) isReverse this) as Hnd.
  rewrite Hks in Hnd. apply NoDup_cons in Hnd as [Hnotin _].
  exists first, rest. rewrite IteratorPrefixWithStart_shape. cbv zeta.
  rewrite Hks. repeat split; try done.
  - destruct rest; [by rewrite Next_at_end by (simpl; lia)|].
    by rewrite Next_before_end by (simpl; lia).
  - by apply (traverse_at_first this _ _ first rest).
  - intros k Hk Hsk.
    apply (getSortedKeys_first_extreme (Some s) isReverse this first rest k Hks).
    rewrite <-Hks. by apply elem_of_getSortedKeys.
Qed.

Lemma C8_cursor_starts_on_first_key_witness :
  (∃ k, is_Some (db store_acb !! k) ∧ String.le "b" k)
  ∧ ∃ first rest,
      MemDB_IteratorPrefixWithStart None (Some "b") false store_acb
      = mkIterator 0 (first :: rest) (Some "b")
      ∧ memDBIterator_Next
          (MemDB_IteratorPrefixWithStart None (Some "b") false store_acb)
        = match rest with
          | [] => (false, mkIterator 0 (first :: rest) (Some "b"))
          | _ :: _ => (true, mkIterator 1 (first :: rest) (Some "b"))
          end
      ∧ traverse (MemDB_IteratorPrefixWithStart None (Some "b") false store_acb)
          store_acb = Done (read_pair store_acb <$> rest)
      ∧ (first ∉ rest)
      ∧ is_Some (db store_acb !! first) ∧ String.le "b" first
      ∧ ∀ k, is_Some (db store_acb !! k) → String.le "b" k →
             if false then String.le k first else String.le first k.
Proof.
  assert (∃ k, is_Some (db store_acb !! k) ∧ String.le "b" k) as Hex.
  { exists "c". split; [by exists (Some "3")|]. vm_compute. exact I. }
  split; [exact Hex|].
  exact (C8_cursor_starts_on_first_key store_acb None "b" false Hex).
Defined.

(** C8, single captured key: at [store_b] and start b the store holds a
    key >= start and the cursor is on index 0, but the first Next() returns
    false and leaves the cursor on 0; it does not advance to index 1. *)
Lemma C8_single_key_counterexample :
  is_Some (db store_b !! "b") ∧ String.le "b" "b"
  ∧ last (MemDB_IteratorPrefixWithStart None (Some "b") false store_b) = 0
  ∧ memDBIterator_Next
      (MemDB_IteratorPrefixWithStart None (Some "b") false store_b)
    = (false, mkIterator 0 ["b"] (Some "b"))
  ∧ last (memDBIterator_Next
            (MemDB_IteratorPrefixWithStart None (Some "b") false store_b)).2
    ≠ 1.
Proof.
  split; [by exists (Some "2")|]. split; [vm_compute; exact I|].
  split; [reflexivity|]. split; [reflexivity|]. vm_compute. discriminate.
Qed.

(** C1: on the store built by Set a, c, b,
    IteratorPrefixWithStart(nil, b, false) captures b, c and puts the
    cursor on index 0, the key b.  The Next/Key/Value traversal reads
    (c,3) alone; reading Key and Value at the cursor before each Next reads
    (b,2) then (c,3).  With reverse=true the captured keys are c, b, the
    Next/Key/Value traversal reads (b,2) alone, and reading before each
    Next reads (c,3) then (b,2). *)
Theorem C1_start_b_traversals :
  MemDB_IteratorPrefixWithStart None (Some "b") false store_acb
  = mkIterator 0 ["b"; "c"] (Some "b")
  ∧ traverse (MemDB_IteratorPrefixWithStart None (Some "b") false store_acb)
      store_acb = Done [(Some "c", Some "3")]
  ∧ traverse_from_cursor
      (MemDB_IteratorPrefixWithStart None (Some "b") false store_acb)
      store_acb = Done [(Some "b", Some "2"); (Some "c", Some "3")]
  ∧ MemDB_IteratorPrefixWithStart None (Some "b") true store_acb
    = mkIterator 0 ["c"; "b"] (Some "b")
  ∧ traverse (MemDB_IteratorPrefixWithStart None (Some "b") true store_acb)
      store_acb = Done [(Some "b", Some "2")]
  ∧ traverse_from_cursor
      (MemDB_IteratorPrefixWithStart None (Some "b") true store_acb)
      store_acb = Done [(Some "c", Some "3"); (Some "b", Some "2")].
Proof. repeat split; vm_compute; reflexivity. Qed.

(** C1, Next-first: the Next/Key/Value traversal of
    IteratorPrefixWithStart(nil, b, false) does not read (b,2) then (c,3),
    and the reverse one does not read (c,3) then (b,2). *)
Lemma C1_Next_first_counterexample :
  traverse (MemDB_IteratorPrefixWithStart None (Some "b") false store_acb)
    store_acb ≠ Done [(Some "b", Some "2"); (Some "c", Some "3")]
  ∧ traverse (MemDB_IteratorPrefixWithStart None (Some "b") true store_acb)
      store_acb ≠ Done [(Some "c", Some "3"); (Some "b", Some "2")].
Proof. split; vm_compute; discriminate. Qed.


(** * Further properties of the store *)

Lemma MemDB_eq (this other : MemDB) : db this = db other → this = other.
Proof. destruct this, other. simpl. by intros ->. Qed.

(** X1: Get after Set returns the value just set for the key that was set
    (also under another slice that converts to the same map key) and what
    it returned before for every other key. *)
Theorem MemDB_Set_then_Get (key key' value : bytes) (this : MemDB) :
  (MemDB_Get key' (MemDB_Set key value this)).1
  = if decide (string_of_bytes key' = string_of_bytes key) then value
    else (MemDB_Get key' this).1.
Proof.
  case_decide.
  - by apply MemDB_Get_Set_same.
  - by apply MemDB_Get_Set_other.
Qed.

(** X2: Get after Delete returns nil for the deleted key and what it
    returned before for every other key; the deleted key is no longer in
    the mapping. *)
Theorem MemDB_Delete_then_Get (key key' : bytes) (this : MemDB) :
  db (MemDB_Delete key this) !! string_of_bytes key = None
  ∧ (MemDB_Get key' (MemDB_Delete key this)).1
    = if decide (string_of_bytes key' = string_of_bytes key) then None
      else (MemDB_Get key' this).1.
Proof.
  split; [apply lookup_delete_eq|]. case_decide.
  - by apply MemDB_Get_Delete_same.
  - by apply MemDB_Get_Delete_other.
Qed.

(** X3: the nil key and the empty key are one key: a value set under
    either is read under the other, and deleting either removes it. *)
Theorem MemDB_nil_key_is_empty_key (value : bytes) (this : MemDB) :
  (MemDB_Get (Some "") (MemDB_Set None value this)).1 = value
  ∧ (MemDB_Get None (MemDB_Set (Some "") value this)).1 = value
  ∧ db (MemDB_Delete None (MemDB_Set (Some "") value this)) !! "" = None
  ∧ db (MemDB_Delete (Some "") (MemDB_Set None value this)) !! "" = None.
Proof.
  repeat split.
  - by apply MemDB_Get_Set_same.
  - by apply MemDB_Get_Set_same.
  - apply lookup_delete_eq.
  - apply lookup_delete_eq.
Qed.

(** X4: deleting a key that is not in the mapping leaves the store as it
    was. *)
Theorem MemDB_Delete_absent (key : bytes) (this : MemDB) :
  db this !! string_of_bytes key = None →
  MemDB_Delete key this = this.
Proof. intros Hk. apply MemDB_eq. simpl. by apply delete_id. Qed.

Lemma MemDB_Delete_absent_witness :
  db store_acb !! string_of_bytes (Some "z") = None
  ∧ MemDB_Delete (Some "z") store_acb = store_acb.
Proof.
  split; [reflexivity|].
  apply (MemDB_Delete_absent (Some "z") store_acb). reflexivity.
Defined.

(** X5: a second Delete of the same key changes nothing, a second Set of
    the same key overwrites the first (so repeating a Set changes
    nothing), Delete undoes a Set of a key that was absent or not, and a
    Set after a Delete is the Set alone. *)
Theorem MemDB_Set_Delete_absorb (key value value' : bytes) (this : MemDB) :
  MemDB_Delete key (MemDB_Delete key this) = MemDB_Delete key this
  ∧ MemDB_Set key value' (MemDB_Set key value this) = MemDB_Set key value' this
  ∧ MemDB_Set key value (MemDB_Set key value this) = MemDB_Set key value this
  ∧ MemDB_Delete key (MemDB_Set key value this) = MemDB_Delete key this
  ∧ MemDB_Set key value (MemDB_Delete key this) = MemDB_Set key value this.
Proof.
  repeat split; apply MemDB_eq; simpl.
  - apply delete_delete_eq.
  - apply insert_insert_eq.
  - apply insert_insert_eq.
  - apply delete_insert_eq.
  - apply insert_delete_eq.
Qed.

(** X6: calls on two different keys can be made in either order. *)
Theorem MemDB_calls_commute (c1 c2 : store_call) (this : MemDB) :
  string_of_bytes (call_key c1) ≠ string_of_bytes (call_key c2) →
  run_call (run_call this c1) c2 = run_call (run_call this c2) c1.
Proof.
  intros Hne. apply MemDB_eq.
  destruct c1 as [k1 v1|k1], c2 as [k2 v2|k2]; simpl in *.
  - by apply insert_insert_ne.
  - by rewrite delete_insert_ne.
  - by rewrite delete_insert_ne.
  - apply delete_delete.
Qed.

Lemma MemDB_calls_commute_witness :
  string_of_bytes (call_key (CallSet (Some "a") (Some "1")))
  ≠ string_of_bytes (call_key (CallDelete (Some "b")))
  ∧ run_call (run_call store_acb (CallSet (Some "a") (Some "1")))
      (CallDelete (Some "b"))
    = run_call (run_call store_acb (CallDelete (Some "b")))
        (CallSet (Some "a") (Some "1")).
Proof.
  assert (string_of_bytes (call_key (CallSet (Some "a") (Some "1")))
          ≠ string_of_bytes (call_key (CallDelete (Some "b")))) as Hne.
  { simpl. discriminate. }
  split; [exact Hne|].
  exact (MemDB_calls_commute (CallSet (Some "a") (Some "1"))
           (CallDelete (Some "b")) store_acb Hne).
Defined.

(** * Further properties of batches *)

Lemma write_op_lookup this op k :
  db (write_op this op) !! k
  = match op_effect k op with
    | Some e => e
    | None => db this !! k
    end.
Proof.
  unfold write_op, op_effect.
  destruct (op_type op =? opTypeSet) eqn:Hset;
    [|destruct (op_type op =? opTypeDelete) eqn:Hdel];
    case_decide as Hk; simpl; try done.
  - by rewrite Hk, lookup_insert_eq.
  - by rewrite lookup_insert_ne.
  - by rewrite Hk, lookup_delete_eq.
  - by rewrite lookup_delete_ne.
Qed.

Lemma write_ops_lookup l this k :
  db (fold_left write_op l this) !! k
  = match last_effect k l with
    | Some e => e
    | None => db this !! k
    end.
Proof.
  revert this. induction l as [|op l IH]; intros this; [done|].
  cbn [fold_left last_effect]. rewrite IH.
  destruct (last_effect k l); [done|]. apply write_op_lookup.
Qed.

(** X7: after Write every map key holds what the last pending operation
    on it left (bound by a Set, also to nil; removed by a Delete), and a
    key no pending operation is on keeps the binding it had. *)
Theorem memDBBatch_Write_lookup (mBatch : memDBBatch) (this : MemDB)
  (k : string) :
  db (memDBBatch_Write mBatch this) !! k
  = match last_effect k (ops mBatch) with
    | Some e => e
    | None => db this !! k
    end.
Proof. apply write_ops_lookup. Qed.


(** X9: when a batch holds a Set and a Delete of the same key, the later
    one decides: Set then Delete leaves the key removed, Delete then Set
    leaves it bound, whatever else the batch held before. *)
Theorem memDBBatch_Write_last_wins (mBatch : memDBBatch) (key value : bytes)
  (this : MemDB) :
  db (memDBBatch_Write
        (memDBBatch_Delete key (memDBBatch_Set key value mBatch)) this)
     !! string_of_bytes key = None
  ∧ db (memDBBatch_Write
          (memDBBatch_Set key value (memDBBatch_Delete key mBatch)) this)
       !! string_of_bytes key = Some value.
Proof.
  split.
  - rewrite memDBBatch_Write_Delete. apply lookup_delete_eq.
  - rewrite memDBBatch_Write_Set. apply lookup_insert_eq.
Qed.

(** X10: Batch.Set and Batch.Delete only append: a batch holds the
    operations it held before, followed by one operation per call, in the
    order of the calls. *)
Theorem memDBBatch_appends_in_order (cs : list store_call)
  (mBatch : memDBBatch) :
  ops (batch_calls cs mBatch)
  = ops mBatch
    ++ map (λ c, match c with
                 | CallSet key value => mkOperation opTypeSet key value
                 | CallDelete key => mkOperation opTypeDelete key None
                 end) cs.
Proof. apply ops_batch_calls. Qed.

(** * Further properties of iterators *)

(** ** The cursor stays in bounds *)








(** X12: Key() panics (index out of range) exactly when the cursor is not
    on a captured key: before the first key, or at or past the number of
    keys; otherwise it returns the key under the cursor, never nil. *)
Theorem memDBIterator_Key_panics_iff (it : memDBIterator) :
  (memDBIterator_Key it = None
   ↔ last it < 0 ∨ Z.of_nat (length (keys it)) ≤ last it)
  ∧ ∀ k, memDBIterator_Key it = Some k →
         ∃ key, k = Some key ∧ keys it !! Z.to_nat (last it) = Some key.
Proof.
  unfold memDBIterator_Key. destruct (Z.leb_spec 0 (last it)) as [Hle|Hlt].
  - split.
    + rewrite fmap_None, lookup_ge_None. lia.
    + intros k (key & Hkey & ->)%fmap_Some. by exists key.
  - split; [|done]. split; [intros _; lia|done].
Qed.

(** X13: when the cursor is in bounds and Next returns true, the cursor
    has moved one place on and Key and Value do not panic: Key is the key
    at the new cursor and Value is what Get returns for it now. *)
Theorem memDBIterator_Next_true_readable (it : memDBIterator)
  (this : MemDB) :
  cursor_in_bounds it →
  (memDBIterator_Next it).1 = true →
  ∃ key,
    last (memDBIterator_Next it).2 = last it + 1
    ∧ keys it !! Z.to_nat (last it + 1) = Some key
    ∧ memDBIterator_Key (memDBIterator_Next it).2 = Some (Some key)
    ∧ memDBIterator_Value (memDBIterator_Next it).2 this
      = Some (MemDB_Get (Some key) this).
Proof.
  destruct it as [i ks st]. unfold cursor_in_bounds. simpl. intros Hb.
  destruct (Z_lt_le_dec i (Z.of_nat (length ks) - 1)) as [Hlt|Hge].
  - rewrite Next_before_end by done. intros _.
    destruct (lookup_lt_is_Some_2 ks (Z.to_nat (i + 1))) as [key Hkey]; [lia|].
    exists key. simpl. split; [done|]. split; [done|].
    assert (i + 1 = Z.of_nat (Z.to_nat (i + 1))) as Hij by lia.
    remember (Z.to_nat (i + 1)) as j eqn:Hj. rewrite Hij.
    unfold memDBIterator_Value. by rewrite (Key_in_range ks st j key Hkey).
  - by rewrite Next_at_end by done.
Qed.

Lemma memDBIterator_Next_true_readable_witness :
  cursor_in_bounds (MemDB_Iterator store_acb)
  ∧ (memDBIterator_Next (MemDB_Iterator store_acb)).1 = true
  ∧ ∃ key,
      last (memDBIterator_Next (MemDB_Iterator store_acb)).2
      = last (MemDB_Iterator store_acb) + 1
      ∧ keys (MemDB_Iterator store_acb)
          !! Z.to_nat (last (MemDB_Iterator store_acb) + 1) = Some key
      ∧ memDBIterator_Key (memDBIterator_Next (MemDB_Iterator store_acb)).2
        = Some (Some key)
      ∧ memDBIterator_Value
          (memDBIterator_Next (MemDB_Iterator store_acb)).2 store_acb
        = Some (MemDB_Get (Some key) store_acb).
Proof.
  assert (cursor_in_bounds (MemDB_Iterator store_acb)) as Hb.
  { unfold cursor_in_bounds. vm_compute. split; discriminate. }
  split; [exact Hb|]. split; [reflexivity|].
  exact (memDBIterator_Next_true_readable (MemDB_Iterator store_acb)
           store_acb Hb eq_refl).
Defined.

(** X14: with the cursor in bounds, the Next/Key/Value traversal never
    panics and reads exactly the captured keys after the cursor, in the
    captured order, each with the value Get returns for it. *)
Theorem traverse_reads_after_cursor (it : memDBIterator) (this : MemDB) :
  cursor_in_bounds it →
  traverse it this
  = Done ((λ key, (Some key, (MemDB_Get (Some key) this).1))
            <$> drop (Z.to_nat (last it + 1)) (keys it)).
Proof.
  destruct it as [i ks st]. unfold cursor_in_bounds. simpl. intros Hb.
  unfold traverse. cbn [keys].
  replace i with (Z.of_nat (Z.to_nat (i + 1)) - 1) at 1 by lia.
  apply traverse_loop_drop; lia.
Qed.

Lemma traverse_reads_after_cursor_witness :
  cursor_in_bounds (mkIterator 1 ["a"; "b"; "c"] None)
  ∧ traverse (mkIterator 1 ["a"; "b"; "c"] None) store_acb
    = Done ((λ key, (Some key, (MemDB_Get (Some key) store_acb).1))
              <$> drop (Z.to_nat (1 + 1)) ["a"; "b"; "c"]).
Proof.
  assert (cursor_in_bounds (mkIterator 1 ["a"; "b"; "c"] None)) as Hb.
  { unfold cursor_in_bounds. simpl. lia. }
  split; [exact Hb|].
  exact (traverse_reads_after_cursor (mkIterator 1 ["a"; "b"; "c"] None)
           store_acb Hb).
Defined.

(** ** Seek *)

Lemma Exists_seek_from ks point :
  Exists (λ key, String.le point key) ks →
  ∃ before key after,
    ks = before ++ key :: after
    ∧ seek_from 0 ks point = Some (Z.of_nat (length before))
    ∧ String.le point key
    ∧ Forall (λ key', string_lt key' point) before.
Proof.
  intros Hex.
  destruct (seek_from 0 ks point) as [j|] eqn:Hj.
  - destruct (seek_from_Some _ _ _ _ Hj)
      as (before & key & after & -> & -> & Hle & Hlt).
    exists before, key, after. by rewrite Z.add_0_l.
  - apply seek_from_None in Hj. apply Exists_exists in Hex as (k & Hk & Hle).
    rewrite Forall_forall in Hj. apply Hj, string_lt_not_le in Hk. done.
Qed.

(** X15: when some captured key is >= point, Seek returns true and puts
    the cursor on the first such key of the captured sequence: every key
    before it is below point, and Key then returns it.  Keys and start
    bound are unchanged. *)
Theorem memDBIterator_Seek_first_at_least (it : memDBIterator)
  (point : bytes) :
  Exists (λ key, String.le (string_of_bytes point) key) (keys it) →
  ∃ before key after,
    keys it = before ++ key :: after
    ∧ memDBIterator_Seek point it
      = (true, mkIterator (Z.of_nat (length before)) (keys it) (start it))
    ∧ String.le (string_of_bytes point) key
    ∧ Forall (λ key', string_lt key' (string_of_bytes point)) before
    ∧ memDBIterator_Key (memDBIterator_Seek point it).2 = Some (Some key).
Proof.
  intros (before & key & after & Hks & Hseek & Hle & Hlt)%Exists_seek_from.
  exists before, key, after. unfold memDBIterator_Seek. rewrite Hseek.
  repeat split; try done. simpl.
  apply Key_in_range. rewrite Hks. by apply list_lookup_middle.
Qed.

Lemma memDBIterator_Seek_first_at_least_witness :
  Exists (λ key, String.le (string_of_bytes (Some "ab")) key)
         (keys (MemDB_Iterator store_acb))
  ∧ ∃ before key after,
      keys (MemDB_Iterator store_acb) = before ++ key :: after
      ∧ memDBIterator_Seek (Some "ab") (MemDB_Iterator store_acb)
        = (true, mkIterator (Z.of_nat (length before))
                   (keys (MemDB_Iterator store_acb))
                   (start (MemDB_Iterator store_acb)))
      ∧ String.le (string_of_bytes (Some "ab")) key
      ∧ Forall (λ key', string_lt key' (string_of_bytes (Some "ab"))) before
      ∧ memDBIterator_Key
          (memDBIterator_Seek (Some "ab") (MemDB_Iterator store_acb)).2
        = Some (Some key).
Proof.
  assert (Exists (λ key, String.le (string_of_bytes (Some "ab")) key)
            (keys (MemDB_Iterator store_acb))) as Hex.
  { vm_compute. apply Exists_cons_tl, Exists_cons_hd. exact I. }
  split; [exact Hex|].
  exact (memDBIterator_Seek_first_at_least (MemDB_Iterator store_acb)
           (Some "ab") Hex).
Defined.

(** X16: on an iterator of IteratorPrefix, whose keys ascend, a Seek that
    finds a key lands on the least captured key >= point. *)
Theorem IteratorPrefix_Seek_least (this : MemDB) (prefix point : bytes) :
  Exists (λ key, String.le (string_of_bytes point) key)
         (keys (MemDB_IteratorPrefix prefix this)) →
  ∃ key,
    (memDBIterator_Seek point (MemDB_IteratorPrefix prefix this)).1 = true
    ∧ memDBIterator_Key
        (memDBIterator_Seek point (MemDB_IteratorPrefix prefix this)).2
      = Some (Some key)
    ∧ key ∈ keys (MemDB_IteratorPrefix prefix this)
    ∧ String.le (string_of_bytes point) key
    ∧ ∀ k, k ∈ keys (MemDB_IteratorPrefix prefix this) →
           String.le (string_of_bytes point) k → String.le key k.
Proof.
  intros (before & key & after & Hks & Hseek & Hle & Hlt)%Exists_seek_from.
  exists key. unfold memDBIterator_Seek. rewrite Hseek.
  repeat split; try done.
  - cbn [snd]. apply Key_in_range. rewrite Hks. by apply list_lookup_middle.
  - rewrite Hks. set_solver.
  - intros k Hk Hpk. rewrite Hks in Hk.
    assert (StronglySorted string_lt (before ++ key :: after)) as Hs.
    { rewrite <-Hks, IteratorPrefix_eq. apply sorted_collect_ascending. }
    apply elem_of_app in Hk as [Hk|Hk].
    + rewrite Forall_forall in Hlt. by apply Hlt, string_lt_not_le in Hk.
    + apply StronglySorted_app_1_r, StronglySorted_cons in Hs as [Hs _].
      apply elem_of_cons in Hk as [->|Hk]; [done|].
      rewrite Forall_forall in Hs. by apply string_lt_le, Hs.
Qed.

Lemma IteratorPrefix_Seek_least_witness :
  Exists (λ key, String.le (string_of_bytes (Some "ab")) key)
         (keys (MemDB_IteratorPrefix None store_acb))
  ∧ ∃ key,
      (memDBIterator_Seek (Some "ab")
         (MemDB_IteratorPrefix None store_acb)).1 = true
      ∧ memDBIterator_Key
          (memDBIterator_Seek (Some "ab")
             (MemDB_IteratorPrefix None store_acb)).2
        = Some (Some key)
      ∧ key ∈ keys (MemDB_IteratorPrefix None store_acb)
      ∧ String.le (string_of_bytes (Some "ab")) key
      ∧ ∀ k, k ∈ keys (MemDB_IteratorPrefix None store_acb) →
             String.le (string_of_bytes (Some "ab")) k → String.le key k.
Proof.
  assert (Exists (λ key, String.le (string_of_bytes (Some "ab")) key)
            (keys (MemDB_IteratorPrefix None store_acb))) as Hex.
  { vm_compute. apply Exists_cons_tl, Exists_cons_hd. exact I. }
  split; [exact Hex|].
  exact (IteratorPrefix_Seek_least store_acb None (Some "ab") Hex).
Defined.

(** X17: on a reverse iterator of IteratorPrefixWithStart, whose keys
    descend, a Seek that finds a key always lands on index 0, the greatest
    captured key, whatever the point. *)
Theorem reverse_Seek_lands_on_first (this : MemDB) (Prefix bound point : bytes) :
  (memDBIterator_Seek point
     (MemDB_IteratorPrefixWithStart Prefix bound true this)).1 = true →
  last (memDBIterator_Seek point
          (MemDB_IteratorPrefixWithStart Prefix bound true this)).2 = 0.
Proof.
  rewrite IteratorPrefixWithStart_shape. cbv zeta.
  unfold memDBIterator_Seek. cbn [keys].
  destruct (seek_from 0 (MemDB_getSortedKeys bound true this)
              (string_of_bytes point)) as [j|] eqn:Hj; [|done].
  intros _. simpl.
  destruct (seek_from_Some _ _ _ _ Hj)
    as (before & key & after & Hks & -> & Hle & Hlt).
  destruct before as [|first before]; [done|]. exfalso.
  pose proof (getSortedKeys_reverse bound this) as Hs. rewrite Hks in Hs.
  apply Forall_cons in Hlt as [Hfirst _].
  apply StronglySorted_cons in Hs as [Hs _].
  rewrite Forall_forall in Hs.
  assert (string_lt key first) as Hkf by (apply Hs; set_solver).
  apply string_lt_not_le in Hfirst. apply Hfirst.
  etrans; [exact Hle|]. by apply string_lt_le.
Qed.

Lemma reverse_Seek_lands_on_first_witness :
  (memDBIterator_Seek (Some "a")
     (MemDB_IteratorPrefixWithStart None None true store_acb)).1 = true
  ∧ last (memDBIterator_Seek (Some "a")
            (MemDB_IteratorPrefixWithStart None None true store_acb)).2 = 0.
Proof.
  split; [reflexivity|].
  apply (reverse_Seek_lands_on_first store_acb None None (Some "a")).
  reflexivity.
Defined.

(** ** Release *)

(** X18: after Release no key is left: Key and Value panic, Seek finds
    nothing, and with a cursor that was not below -1 Next returns false
    and the traversal reads nothing; a second Release changes nothing. *)
Theorem memDBIterator_Release_empties (it : memDBIterator) (this : MemDB)
  (point : bytes) :
  -1 ≤ last it →
  memDBIterator_Next (memDBIterator_Release it)
  = (false, memDBIterator_Release it)
  ∧ traverse (memDBIterator_Release it) this = Done []
  ∧ memDBIterator_Key (memDBIterator_Release it) = None
  ∧ memDBIterator_Value (memDBIterator_Release it) this = None
  ∧ memDBIterator_Seek point (memDBIterator_Release it)
    = (false, memDBIterator_Release it)
  ∧ memDBIterator_Release (memDBIterator_Release it)
    = memDBIterator_Release it.
Proof.
  intros Hlast. unfold memDBIterator_Release.
  assert (memDBIterator_Key (mkIterator (last it) [] (start it)) = None)
    as Hkey.
  { unfold memDBIterator_Key. simpl. by destruct (0 <=? last it). }
  repeat split; try done.
  - by rewrite Next_at_end by (simpl; lia).
  - unfold traverse. cbn [keys traverse_loop].
    by rewrite Next_at_end by (simpl; lia).
  - unfold memDBIterator_Value. by rewrite Hkey.
Qed.

Lemma memDBIterator_Release_empties_witness :
  -1 ≤ last (MemDB_Iterator store_acb)
  ∧ memDBIterator_Next (memDBIterator_Release (MemDB_Iterator store_acb))
    = (false, memDBIterator_Release (MemDB_Iterator store_acb))
  ∧ traverse (memDBIterator_Release (MemDB_Iterator store_acb)) store_acb
    = Done []
  ∧ memDBIterator_Key (memDBIterator_Release (MemDB_Iterator store_acb))
    = None
  ∧ memDBIterator_Value (memDBIterator_Release (MemDB_Iterator store_acb))
      store_acb = None
  ∧ memDBIterator_Seek (Some "a")
      (memDBIterator_Release (MemDB_Iterator store_acb))
    = (false, memDBIterator_Release (MemDB_Iterator store_acb))
  ∧ memDBIterator_Release (memDBIterator_Release (MemDB_Iterator store_acb))
    = memDBIterator_Release (MemDB_Iterator store_acb).
Proof.
  assert (-1 ≤ last (MemDB_Iterator store_acb)) as Hlast by (simpl; lia).
  split; [exact Hlast|].
  exact (memDBIterator_Release_empties (MemDB_Iterator store_acb) store_acb
           (Some "a") Hlast).
Defined.

(** ** Values are read live *)

Lemma traverse_IteratorPrefix_later prefix this later :
  traverse (MemDB_IteratorPrefix prefix this) later
  = Done (read_pair later <$> keys (MemDB_IteratorPrefix prefix this)).
Proof. rewrite IteratorPrefix_eq. apply traverse_before_first. Qed.

(** X19: the values of a traversal come from the store as it is when the
    traversal runs, not as it was when the iterator was built: the
    iterator of IteratorPrefix, traversed over any later store, reads its
    captured keys with the later store's values. *)
Theorem IteratorPrefix_reads_live_values (prefix : bytes)
  (this later : MemDB) :
  traverse (MemDB_IteratorPrefix prefix this) later
  = Done ((λ key, (Some key,
                   match db later !! key with
                   | Some v => v
                   | None => None
                   end))
            <$> keys (MemDB_IteratorPrefix prefix this)).
Proof. apply traverse_IteratorPrefix_later. Qed.

(** X20: a key deleted after the iterator was built is still visited, and
    its value reads nil. *)
Theorem Iterator_visits_deleted_key (this : MemDB) (k : string) :
  is_Some (db this !! k) →
  ∃ pairs,
    traverse (MemDB_Iterator this) (MemDB_Delete (Some k) this) = Done pairs
    ∧ (Some k, None) ∈ pairs.
Proof.
  intros Hk. eexists. split; [apply traverse_IteratorPrefix_later|].
  apply list_elem_of_fmap. exists k. split.
  - unfold read_pair, MemDB_Get. simpl. by rewrite lookup_delete_eq.
  - apply elem_of_keys_IteratorPrefix. split; [done|]. by exists k.
Qed.

Lemma Iterator_visits_deleted_key_witness :
  is_Some (db store_acb !! "b")
  ∧ ∃ pairs,
      traverse (MemDB_Iterator store_acb) (MemDB_Delete (Some "b") store_acb)
      = Done pairs
      ∧ (Some "b", None) ∈ pairs.
Proof.
  assert (is_Some (db store_acb !! "b")) as Hk by (by exists (Some "2")).
  split; [exact Hk|].
  exact (Iterator_visits_deleted_key store_acb "b" Hk).
Defined.

(** X21: a key set to nil is in the mapping: the iterator visits it, with
    the value nil, although Get alone cannot tell it from an absent key. *)
Theorem Iterator_visits_nil_valued_key (this : MemDB) (key : bytes) :
  string_of_bytes key ∈ keys (MemDB_Iterator (MemDB_Set key None this))
  ∧ ∃ pairs,
      traverse (MemDB_Iterator (MemDB_Set key None this))
        (MemDB_Set key None this) = Done pairs
      ∧ (Some (string_of_bytes key), None) ∈ pairs.
Proof.
  assert (string_of_bytes key
          ∈ keys (MemDB_Iterator (MemDB_Set key None this))) as Hin.
  { apply elem_of_keys_IteratorPrefix. split.
    - exists None. apply lookup_insert_eq.
    - by exists (string_of_bytes key). }
  split; [done|]. eexists.
  split; [apply traverse_IteratorPrefix_later|].
  apply list_elem_of_fmap. exists (string_of_bytes key). split; [|done].
  unfold read_pair, MemDB_Get. simpl. by rewrite lookup_insert_eq.
Qed.

(** ** What the constructors capture, continued *)

Lemma keys_Iterator_all this :
  keys (MemDB_Iterator this)
  = sort_Strings (collect_keys (λ _, true) [] (range_keys this)).
Proof.
  unfold MemDB_Iterator. rewrite IteratorPrefix_eq. cbn [keys].
  rewrite !collect_keys_filter. cbn [app]. apply (f_equal sort_Strings).
  apply list_filter_iff. intros key. split; [intros _; reflexivity|].
  intros _. apply strings_HasPrefix_spec. exists key. reflexivity.
Qed.

Lemma getSortedKeys_nil_start this :
  MemDB_getSortedKeys None false this = keys (MemDB_Iterator this).
Proof.
  rewrite getSortedKeys_eq, keys_Iterator_all. cbv zeta.
  rewrite !collect_keys_filter. cbn [app]. apply (f_equal sort_Strings).
  apply list_filter_iff. intros key. split; [intros _; reflexivity|].
  intros _. apply bytes_Compare_keep.
  unfold String.le, String.leb. simpl. by destruct key.
Qed.

(** X22: with a nil start, IteratorPrefixWithStart is a full scan from
    before the first key: forward it is the iterator of Iterator() but for
    the recorded start, and in reverse it reads the same pairs in the
    opposite order. *)
Theorem IteratorPrefixWithStart_nil_start (this : MemDB) (Prefix : bytes) :
  MemDB_IteratorPrefixWithStart Prefix None false this = MemDB_Iterator this
  ∧ MemDB_IteratorPrefixWithStart Prefix None true this
    = mkIterator (-1) (reverse (keys (MemDB_Iterator this))) None
  ∧ ∃ pairs,
      traverse (MemDB_Iterator this) this = Done pairs
      ∧ traverse (MemDB_IteratorPrefixWithStart Prefix None false this) this
        = Done pairs
      ∧ traverse (MemDB_IteratorPrefixWithStart Prefix None true this) this
        = Done (reverse pairs).
Proof.
  assert (MemDB_IteratorPrefixWithStart Prefix None false this
          = MemDB_Iterator this) as Hfwd.
  { rewrite IteratorPrefixWithStart_shape. cbv zeta.
    by rewrite getSortedKeys_nil_start. }
  assert (MemDB_IteratorPrefixWithStart Prefix None true this
          = mkIterator (-1) (reverse (keys (MemDB_Iterator this))) None)
    as Hrev.
  { rewrite IteratorPrefixWithStart_shape. cbv zeta.
    by rewrite <-getSortedKeys_nil_start, !getSortedKeys_eq. }
  split; [done|]. split; [done|].
  exists (read_pair this <$> keys (MemDB_Iterator this)).
  assert (traverse (MemDB_Iterator this) this
          = Done (read_pair this <$> keys (MemDB_Iterator this))) as Htr.
  { unfold MemDB_Iterator. rewrite IteratorPrefix_eq.
    apply traverse_before_first. }
  rewrite Hfwd, Hrev, traverse_before_first, fmap_reverse.
  by rewrite Htr.
Qed.

(** X23: for any start, the reverse iterator captures the keys of the
    forward one in the opposite order; forward they ascend strictly, in
    reverse they descend strictly, and no key is captured twice. *)
Theorem getSortedKeys_reverse_of_forward (this : MemDB) (bound : bytes) :
  MemDB_getSortedKeys bound true this
  = reverse (MemDB_getSortedKeys bound false this)
  ∧ StronglySorted string_lt (MemDB_getSortedKeys bound false this)
  ∧ StronglySorted (flip string_lt) (MemDB_getSortedKeys bound true this)
  ∧ NoDup (MemDB_getSortedKeys bound true this).
Proof.
  split; [by rewrite !getSortedKeys_eq|].
  split; [apply getSortedKeys_forward|].
  split; [apply getSortedKeys_reverse|apply NoDup_getSortedKeys].
Qed.

(** X24: the swap loop of getSortedKeys reverses any slice, of even or odd
    length, without indexing out of range; run twice it gives the slice
    back. *)
Theorem reverse_in_place_correct (ks : list string) :
  reverse_in_place ks = reverse ks
  ∧ length (reverse_in_place ks) = length ks
  ∧ reverse_in_place (reverse_in_place ks) = ks
  ∧ ∀ i, (2 * i + 2 ≤ length ks)%nat →
         is_Some (swap_rounds (length ks) i ks !! i)
         ∧ is_Some (swap_rounds (length ks) i ks !! (length ks - i - 1)%nat).
Proof.
  split; [apply reverse_in_place_reverse|].
  split; [by rewrite reverse_in_place_reverse, length_reverse|].
  split; [by rewrite !reverse_in_place_reverse, reverse_involutive|].
  intros i Hi.
  destruct (swap_keys_in_range ks i (swap_rounds (length ks) i ks) Hi)
    as (temp & kj & Ht & Hj & _); [apply mirrored_swap_rounds; lia|].
  by rewrite Ht, Hj.
Qed.

(** X25: a full scan reads the whole mapping and nothing else: the pairs
    read by the traversal of Iterator(), taken as a map, are the store's
    mapping, and there are as many as the mapping has keys. *)
Theorem Iterator_reads_whole_store (this : MemDB) :
  ∃ pairs,
    traverse (MemDB_Iterator this) this = Done pairs
    ∧ pairs_to_map pairs = db this
    ∧ length pairs = size (db this).
Proof.
  exists (read_pair this <$> keys (MemDB_Iterator this)). split.
  { unfold MemDB_Iterator. rewrite IteratorPrefix_eq.
    apply traverse_before_first. }
  assert (keys (MemDB_Iterator this) ≡ₚ range_keys this) as Hperm.
  { rewrite keys_Iterator_all, sort_Strings_perm, collect_keys_filter. simpl.
    induction (range_keys this) as [|x l IH]; [done|].
    rewrite filter_cons_True by done. by f_equiv. }
  assert ((λ p, (string_of_bytes p.1, p.2)) ∘ read_pair this
            <$> range_keys this = map_to_list (db this)) as Hrange.
  { unfold range_keys. rewrite <-list_fmap_compose.
    transitivity (id <$> map_to_list (db this)); [|apply list_fmap_id].
    apply list_fmap_ext. intros i [k v] Hkv.
    apply list_elem_of_lookup_2, elem_of_map_to_list in Hkv.
    unfold read_pair. simpl. by rewrite Hkv. }
  split.
  - unfold pairs_to_map. rewrite <-list_fmap_compose.
    rewrite (list_to_map_proper _ (map_to_list (db this))).
    + apply list_to_map_to_list.
    + rewrite <-list_fmap_compose.
      rewrite (list_fmap_ext _ id _ (λ _ _ _, eq_refl)), list_fmap_id.
      rewrite Hperm. apply NoDup_range_keys.
    + by rewrite Hperm, Hrange.
  - rewrite length_fmap, Hperm. unfold range_keys.
    by rewrite length_fmap, length_map_to_list.
Qed.

Lemma StronglySorted_le_filter (P : string → Prop) `{∀ x, Decision (P x)}
  (l : list string) :
  StronglySorted String.le l → StronglySorted String.le (filter P l).
Proof.
  induction 1 as [|x l Hs IH Hx]; [constructor|].
  rewrite filter_cons. case_decide; [|done]. constructor; [done|].
  rewrite Forall_forall in Hx |- *. intros y [_ Hy]%list_elem_of_filter. auto.
Qed.

(** X26: a prefix scan is the full scan cut down to the prefix: the keys
    IteratorPrefix(p) captures are the keys Iterator() captures that have
    the prefix p, in the same order. *)
Theorem IteratorPrefix_filters_Iterator (this : MemDB) (p : bytes) :
  keys (MemDB_IteratorPrefix p this)
  = filter (λ key, strings_HasPrefix key (string_of_bytes p) = true)
      (keys (MemDB_Iterator this))
  ∧ keys (MemDB_IteratorPrefix p this)
    `sublist_of` keys (MemDB_Iterator this).
Proof.
  assert (keys (MemDB_IteratorPrefix p this)
          = filter (λ key, strings_HasPrefix key (string_of_bytes p) = true)
              (keys (MemDB_Iterator this))) as Heq.
  { apply (StronglySorted_unique String.le).
    - rewrite IteratorPrefix_eq. cbn [keys].
      apply Sorted_StronglySorted; [apply _|apply sort_Strings_Sorted].
    - apply StronglySorted_le_filter. rewrite keys_Iterator_all.
      apply Sorted_StronglySorted; [apply _|apply sort_Strings_Sorted].
    - rewrite IteratorPrefix_eq, keys_Iterator_all. cbn [keys].
      rewrite !sort_Strings_perm, !collect_keys_filter. cbn [app].
      f_equiv. induction (range_keys this) as [|x l IH]; [done|].
      rewrite filter_cons_True by done. by f_equiv. }
  split; [done|]. rewrite Heq. apply sublist_filter.
Qed.

(** X27: when no key of the store is >= start, IteratorPrefixWithStart
    captures nothing and leaves the cursor before the first key, also with
    a non-nil start: Next returns false, the traversal reads nothing, and
    Key panics. *)
Theorem IteratorPrefixWithStart_nothing_captured (this : MemDB)
  (Prefix bound : bytes) (isReverse : bool) :
  (∀ k, is_Some (db this !! k) → string_lt k (string_of_bytes bound)) →
  MemDB_IteratorPrefixWithStart Prefix bound isReverse this
  = mkIterator (-1) [] bound
  ∧ memDBIterator_Next
      (MemDB_IteratorPrefixWithStart Prefix bound isReverse this)
    = (false, mkIterator (-1) [] bound)
  ∧ traverse (MemDB_IteratorPrefixWithStart Prefix bound isReverse this) this
    = Done []
  ∧ memDBIterator_Key
      (MemDB_IteratorPrefixWithStart Prefix bound isReverse this) = None.
Proof.
  intros Hbelow.
  assert (MemDB_getSortedKeys bound isReverse this = []) as Hks.
  { destruct (MemDB_getSortedKeys bound isReverse this) as [|k ks] eqn:Hks;
      [done|].
    assert (k ∈ MemDB_getSortedKeys bound isReverse this) as Hin
      by (rewrite Hks; left).
    apply elem_of_getSortedKeys in Hin as [Hk Hle].
    by apply Hbelow, string_lt_not_le in Hk. }
  assert (MemDB_IteratorPrefixWithStart Prefix bound isReverse this
          = mkIterator (-1) [] bound) as ->.
  { rewrite IteratorPrefixWithStart_shape. cbv zeta. rewrite Hks.
    by destruct bound. }
  done.
Qed.

Lemma IteratorPrefixWithStart_nothing_captured_witness :
  (∀ k, is_Some (db store_acb !! k)
        → string_lt k (string_of_bytes (Some "d")))
  ∧ MemDB_IteratorPrefixWithStart None (Some "d") true store_acb
    = mkIterator (-1) [] (Some "d")
  ∧ memDBIterator_Next
      (MemDB_IteratorPrefixWithStart None (Some "d") true store_acb)
    = (false, mkIterator (-1) [] (Some "d"))
  ∧ traverse (MemDB_IteratorPrefixWithStart None (Some "d") true store_acb)
      store_acb = Done []
  ∧ memDBIterator_Key
      (MemDB_IteratorPrefixWithStart None (Some "d") true store_acb) = None.
Proof.
  assert (∀ k, is_Some (db store_acb !! k)
               → string_lt k (string_of_bytes (Some "d"))) as Hbelow.
  { intros k Hk. apply elem_of_range_keys in Hk.
    assert (Forall (λ k, string_lt k "d") (range_keys store_acb)) as Hall
      by (vm_compute; repeat constructor).
    rewrite Forall_forall in Hall. by apply Hall. }
  split; [exact Hbelow|].
  exact (IteratorPrefixWithStart_nothing_captured store_acb None (Some "d")
           true Hbelow).
Defined.

Lemma IteratorPrefixWithStart_on_first this Prefix (s : string) isReverse :
  (∃ k, is_Some (db this !! k) ∧ String.le s k) →
  ∃ first rest,
    MemDB_getSortedKeys (Some s) isReverse this = first :: rest
    ∧ MemDB_IteratorPrefixWithStart Prefix (Some s) isReverse this
      = mkIterator 0 (first :: rest) (Some s).
Proof.
  intros (k0 & Hk0 & Hle0).
  assert (k0 ∈ MemDB_getSortedKeys (Some s) isReverse this) as Hin0
    by by apply elem_of_getSortedKeys.
  destruct (MemDB_getSortedKeys (Some s) isReverse this)
    as [|first rest] eqn:Hks; [by apply elem_of_nil in Hin0|].
  exists first, rest. split; [done|].
  rewrite IteratorPrefixWithStart_shape. cbv zeta. by rewrite Hks.
Qed.

(** X28: with a non-nil start and a key >= start in the store, the
    iterator is readable as returned: reading Key and Value at the cursor
    before each Next never panics and reads every captured key, that is
    every key >= start, in the captured order. *)
Theorem IteratorPrefixWithStart_read_from_cursor (this : MemDB)
  (Prefix : bytes) (s : string) (isReverse : bool) :
  (∃ k, is_Some (db this !! k) ∧ String.le s k) →
  traverse_from_cursor
    (MemDB_IteratorPrefixWithStart Prefix (Some s) isReverse this) this
  = Done ((λ key, (Some key, (MemDB_Get (Some key) this).1))
            <$> MemDB_getSortedKeys (Some s) isReverse this)
  ∧ ∀ k, k ∈ MemDB_getSortedKeys (Some s) isReverse this
         ↔ is_Some (db this !! k) ∧ String.le s k.
Proof.
  intros Hex. split; [|intros k; apply elem_of_getSortedKeys].
  destruct (IteratorPrefixWithStart_on_first this Prefix s isReverse Hex)
    as (first & rest & Hks & Hit).
  rewrite Hit, Hks. by apply traverse_from_cursor_at_first.
Qed.

Lemma IteratorPrefixWithStart_read_from_cursor_witness :
  (∃ k, is_Some (db store_acb !! k) ∧ String.le "b" k)
  ∧ traverse_from_cursor
      (MemDB_IteratorPrefixWithStart None (Some "b") true store_acb) store_acb
    = Done ((λ key, (Some key, (MemDB_Get (Some key) store_acb).1))
              <$> MemDB_getSortedKeys (Some "b") true store_acb)
  ∧ ∀ k, k ∈ MemDB_getSortedKeys (Some "b") true store_acb
         ↔ is_Some (db store_acb !! k) ∧ String.le "b" k.
Proof.
  assert (∃ k, is_Some (db store_acb !! k) ∧ String.le "b" k) as Hex.
  { exists "c". split; [by exists (Some "3")|]. vm_compute. exact I. }
  split; [exact Hex|].
  exact (IteratorPrefixWithStart_read_from_cursor store_acb None "b" true Hex).
Defined.
